(** * PMP access check ([pmp_check.py]): shallow embedding and properties

    The script decides whether one memory access is allowed by a RISC-V
    physical memory protection unit with 64 entries.  Python integers are
    unbounded, so every integer is a [Z] and the bit operations are those of
    [Z] (two's complement, sign-extending right shift).  The only loop whose
    end depends on its data is the one of [count_trailing_ones]; it is
    embedded with a step budget, and the budget chosen for it is shown to be
    exhausted exactly on the input on which the Python loop runs for ever. *)

From Stdlib Require Import ZArith Lia Bool String List.
From stdpp Require Import base list.

Local Open Scope Z_scope.

(** ** Results of a call *)

(** Exceptions the embedded code can raise. *)
Inductive exn : Type :=
  | IndexError.

(** A call returns a value, raises, or does not return. *)
Inductive result (A : Type) : Type :=
  | Val (v : A)
  | Raise (e : exn)
  | Diverges.

Arguments Val {A} v.
Arguments Raise {A} e.
Arguments Diverges {A}.

#[global] Instance result_ret : MRet result := fun A v => Val v.

#[global] Instance result_bind : MBind result := fun A B f m =>
  match m with
  | Val v => f v
  | Raise e => Raise e
  | Diverges => Diverges
  end.

(** [l[i]] on a Python list: a negative index counts from the end, an index
    out of range raises. *)
Definition py_index (l : list Z) (i : Z) : result Z :=
  let n := Z.of_nat (length l) in
  let j := if i <? 0 then i + n else i in
  if (j <? 0) || (n <=? j) then Raise IndexError
  else match l !! Z.to_nat j with
       | Some v => Val v
       | None => Raise IndexError
       end.

(** ** [count_trailing_ones] *)

(** The [while x & 1] loop, with [count] as its accumulator.  [fuel] bounds
    the number of loop tests; the result is [Diverges] when the loop has
    not ended within them. *)
Fixpoint count_trailing_ones_loop (fuel : nat) (x count : Z) : result Z :=
  match fuel with
  | O => Diverges
  | S fuel' =>
      if negb (Z.land x 1 =? 0)
      then count_trailing_ones_loop fuel' (Z.shiftr x 1) (count + 1)
      else Val count
  end.

(** A number of loop tests that suffices whenever the loop ends at all:
    the loop ends within it on every input other than -1 ([loop_enough],
    [fuel_covers]), and on -1 it ends within no number of tests
    ([loop_minus_one]). *)
Definition count_trailing_ones_fuel (x : Z) : nat :=
  S (Z.to_nat (Z.log2 (Z.abs x) + 1)).

Definition count_trailing_ones (x : Z) : result Z :=
  count_trailing_ones_loop (count_trailing_ones_fuel x) x 0.

(** ** class [PMPRegion] *)

Module PMPRegion.

Record t : Type := mk {
  index : Z;
  cfg : Z;
  addr : Z;
  all_pmpaddr : list Z;
  L : Z;
  a : Z;
  X : Z;
  W : Z;
  R : Z
}.

(** [__init__]: the fields of the configuration byte. *)
Definition init (index cfg addr : Z) (all_pmpaddr : list Z) : t :=
  {| index := index;
     cfg := cfg;
     addr := addr;
     all_pmpaddr := all_pmpaddr;
     L := Z.land (Z.shiftr cfg 7) 1;
     a := Z.land (Z.shiftr cfg 5) 3;
     X := Z.land (Z.shiftr cfg 4) 1;
     W := Z.land (Z.shiftr cfg 3) 1;
     R := Z.land (Z.shiftr cfg 2) 1 |}.

(** The pair [(lower, upper)], or [(None, None)].  The shift counts are
    literals, or [n] and [n + 3] for a count [n] that is never negative, so
    that no shift raises. *)
Definition region_bounds (self : t) : result (option Z * option Z) :=
  if a self =? 0 then Val (None, None)
  else if a self =? 1 then
    lower ← (if index self =? 0 then Val 0
             else p ← py_index (all_pmpaddr self) (index self - 1);
                  Val (Z.shiftl p 2));
    let upper := Z.shiftl (addr self) 2 in
    Val (Some lower, Some upper)
  else if a self =? 2 then
    let lower := Z.shiftl (addr self) 2 in
    let upper := lower + 4 in
    Val (Some lower, Some upper)
  else if a self =? 3 then
    n ← count_trailing_ones (addr self);
    let size := Z.shiftl 1 (n + 3) in
    let lower := Z.shiftl (Z.land (addr self) (Z.lnot (Z.shiftl 1 n - 1))) 2 in
    let upper := lower + size in
    Val (Some lower, Some upper)
  else Val (None, None).

Definition matches (self : t) (phys_addr : Z) : result bool :=
  '(lower, upper) ← region_bounds self;
  match lower, upper with
  | Some lower, Some upper => Val ((lower <=? phys_addr) && (phys_addr <? upper))
  | _, _ => Val false
  end.

(** [op] is the operation letter; a field is true when it is not 0. *)
Definition permits (self : t) (op priv_mode : string) : bool :=
  if String.eqb op "R" && negb (R self =? 0) then true
  else if String.eqb op "W" && negb (W self =? 0) then true
  else if String.eqb op "X" && negb (X self =? 0) then true
  else false.

End PMPRegion.

(** ** [main], from the point where the arguments and the file are parsed *)

Definition Access_allowed : string := "Access allowed".
Definition Access_fault : string := "Access fault".

(** [[PMPRegion(i, pmpcfg[i], pmpaddr[i], pmpaddr) for i in range(64)]] *)
Definition build_regions (pmpcfg pmpaddr : list Z) : result (list PMPRegion.t) :=
  mapM (fun i : Z => c ← py_index pmpcfg i;
                     ad ← py_index pmpaddr i;
                     Val (PMPRegion.init i c ad pmpaddr))
       (seqZ 0 64).

(** The [for region in regions] loop: the line printed at the first region
    that matches, [None] when the loop ends without one. *)
Fixpoint scan_regions (regions : list PMPRegion.t) (phys_addr : Z)
    (mode operation : string) : result (option string) :=
  match regions with
  | [] => Val None
  | region :: rest =>
      m ← PMPRegion.matches region phys_addr;
      if (m : bool) then
        if String.eqb mode "M" && (PMPRegion.L region =? 0)
        then Val (Some Access_allowed)
        else if PMPRegion.permits region operation mode
             then Val (Some Access_allowed)
             else Val (Some Access_fault)
      else scan_regions rest phys_addr mode operation
  end.

(** [main] after parsing: [pmpcfg] and [pmpaddr] are the two halves of the
    128 lines of the file, [mode] is one of M, S, U and [operation] one of
    R, W, X.  The value is the line printed. *)
Definition main (pmpcfg pmpaddr : list Z) (phys_addr : Z)
    (mode operation : string) : result string :=
  regions ← build_regions pmpcfg pmpaddr;
  let any_pmp := existsb (fun cfg => negb (Z.land (Z.shiftr cfg 5) 3 =? 0)) pmpcfg in
  printed ← scan_regions regions phys_addr mode operation;
  match printed with
  | Some line => Val line
  | None =>
      if any_pmp && (String.eqb mode "S" || String.eqb mode "U")
      then Val Access_fault
      else Val Access_allowed
  end.

(** ** [main], from the command line to the exit status *)

(** The functions of Python the script calls on strings are not part of
    the repository and are parameters of the model: [str_upper] is
    [str.upper], [str_strip] is [str.strip], and [int16 s] is [int(s, 16)],
    either the integer or the text of the [ValueError] it raises. *)
Record python : Type := {
  str_upper : string -> string;
  str_strip : string -> string;
  int16 : string -> Z + string
}.

(** What reading a file gives: the lines the iteration over the open file
    yields, or the text of the exception that [open] or the iteration
    raises. *)
Definition file_contents : Type := (list string + string)%type.

(** [[int(line, 16) for line in lines]]: the values, or the text of the
    first [ValueError]. *)
Fixpoint int16_all (py : python) (lines : list string) : list Z + string :=
  match lines with
  | [] => inl []
  | line :: rest =>
      match int16 py line with
      | inr e => inr e
      | inl v =>
          match int16_all py rest with
          | inr e => inr e
          | inl vs => inl (v :: vs)
          end
      end
  end.

(** [[line.strip() for line in f if line.strip()]] *)
Definition config_lines (py : python) (raw : list string) : list string :=
  map (str_strip py) (List.filter (fun line => negb (String.eqb (str_strip py line) "")) raw).

(** The [try] block that reads the configuration: the two lists, or the
    line printed and the exit status. *)
Definition read_config (py : python) (file : file_contents)
    : (string * Z) + (list Z * list Z) :=
  match file with
  | inr e => inl (("Error reading configuration file: " ++ e)%string, 1)
  | inl raw =>
      let lines := config_lines py raw in
      if negb (Nat.eqb (length lines) 128)
      then inl ("Configuration file must have exactly 128 non-empty lines."%string, 1)
      else
        match int16_all py (firstn 64 lines) with
        | inr e => inl (("Error reading configuration file: " ++ e)%string, 1)
        | inl pmpcfg =>
            match int16_all py (skipn 64 lines) with
            | inr e => inl (("Error reading configuration file: " ++ e)%string, 1)
            | inl pmpaddr => inr (pmpcfg, pmpaddr)
            end
        end
  end.

(** The whole of [main]: [argv] is [sys.argv] and [files] gives what
    reading the file of each path gives.  The value is the line printed
    and the exit status, 1 after [sys.exit(1)] and 0 at a plain return. *)
Definition program (py : python) (files : string -> file_contents)
    (argv : list string) : result (string * Z) :=
  match argv with
  | [_; config_file; address_str; arg_mode; arg_operation] =>
      let mode := str_upper py arg_mode in
      let operation := str_upper py arg_operation in
      if negb (String.prefix "0x" address_str)
      then Val ("Invalid address format. Must start with '0x'."%string, 1)
      else
        match int16 py address_str with
        | inr _ => Val ("Invalid address value."%string, 1)
        | inl phys_addr =>
            if negb (existsb (String.eqb mode) ["M"; "S"; "U"]%string)
            then Val ("Invalid privilege mode. Must be one of 'M', 'S', or 'U'."%string, 1)
            else if negb (existsb (String.eqb operation) ["R"; "W"; "X"]%string)
            then Val ("Invalid operation. Must be one of 'R', 'W', or 'X'."%string, 1)
            else
              match read_config py (files config_file) with
              | inl failure => Val failure
              | inr (pmpcfg, pmpaddr) =>
                  line ← main pmpcfg pmpaddr phys_addr mode operation;
                  Val (line, 0)
              end
        end
  | _ => Val ("Usage: python3 pmp_check.py pmp_config.txt 0xaddress M/S/U R/W/X"%string, 1)
  end.

(** Stand-ins for the functions of Python, for the examples: they are
    right on the strings of [sample_file] and [sample_argv]. *)
Definition sample_python : python := {|
  str_upper := fun s => s;
  str_strip := fun s => s;
  int16 := fun s =>
    if String.eqb s "0x1004" then inl 0x1004
    else if String.eqb s "6C" then inl 0x6C
    else if String.eqb s "401" then inl 0x401
    else if String.eqb s "0" then inl 0
    else inr "invalid literal for int() with base 16"%string
|}.

Definition sample_file : list string :=
  ("6C" :: repeat "0" 63 ++ "401" :: repeat "0" 63)%string.

Definition sample_argv : list string :=
  ["pmp_check.py"; "pmp_config.txt"; "0x1004"; "S"; "W"]%string.

(** ** Notions the statements use *)

(** [n] is the length of the run of 1 bits of [x] that starts at bit 0. *)
Definition trailing_ones (x n : Z) : Prop :=
  0 <= n /\ (forall i, 0 <= i < n -> Z.testbit x i = true) /\ Z.testbit x n = false.

(** [x] with its low [n] bits cleared. *)
Definition clear_low (x n : Z) : Z := x / 2 ^ n * 2 ^ n.

(** The canonical NAPOT register value of the region of base [B] and size
    [S], written as the specification writes it: base >> 2, or-ed with
    size/8 - 1. *)
Definition napot_encode (B S : Z) : Z := Z.lor (Z.shiftr B 2) (S / 8 - 1).

(** The decoded region of an entry contains the byte address [phys_addr]. *)
Definition region_contains (r : PMPRegion.t) (phys_addr : Z) : Prop :=
  exists lower upper,
    PMPRegion.region_bounds r = Val (Some lower, Some upper) /\
    lower <= phys_addr < upper.

(** The entry is decoded and its region, if it has one, does not contain
    [phys_addr]. *)
Definition region_misses (r : PMPRegion.t) (phys_addr : Z) : Prop :=
  exists bounds,
    PMPRegion.region_bounds r = Val bounds /\
    match bounds with
    | (Some lower, Some upper) => ~ (lower <= phys_addr < upper)
    | _ => True
    end.

(** Entry [i] of the configuration: the object [main] builds from the two
    lists at index [i]. *)
Definition entry_at (pmpcfg pmpaddr : list Z) (i : nat) : option PMPRegion.t :=
  c ← pmpcfg !! i;
  ad ← pmpaddr !! i;
  Some (PMPRegion.init (Z.of_nat i) c ad pmpaddr).

(** [r] is the entry of lowest index, [i], whose region contains
    [phys_addr]. *)
Definition first_match (pmpcfg pmpaddr : list Z) (phys_addr : Z)
    (i : nat) (r : PMPRegion.t) : Prop :=
  entry_at pmpcfg pmpaddr i = Some r /\
  region_contains r phys_addr /\
  forall j r', (j < i)%nat -> entry_at pmpcfg pmpaddr j = Some r' ->
               region_misses r' phys_addr.

(** No entry has a region that contains [phys_addr]. *)
Definition no_match (pmpcfg pmpaddr : list Z) (phys_addr : Z) : Prop :=
  forall i r, entry_at pmpcfg pmpaddr i = Some r -> region_misses r phys_addr.

(** The permission set of a configuration value: bit 2 is Read, bit 3 is
    Write, bit 4 is Execute. *)
Definition permission_bit (operation : string) : option Z :=
  if String.eqb operation "R" then Some 2
  else if String.eqb operation "W" then Some 3
  else if String.eqb operation "X" then Some 4
  else None.

Definition has_permission (cfg : Z) (operation : string) : bool :=
  match permission_bit operation with
  | Some b => Z.testbit cfg b
  | None => false
  end.

(** A configuration for the examples: entry 0 is NAPOT over
    [0x1000, 0x1010) with Read and Write, unlocked; entry 1 is NA4 over
    [0x1004, 0x1008) with Execute; the other 62 entries are OFF. *)
Definition sample_pmpcfg : list Z := 0x6C :: 0x50 :: repeat 0 62.
Definition sample_pmpaddr : list Z := 0x401 :: 0x401 :: repeat 0 62.

(** * Bits of [Z] *)

Section Bits.

Lemma land_1_testbit x : Z.land x 1 = Z.b2z (Z.testbit x 0).
Proof.
  change 1 with (Z.ones 1). rewrite Z.land_ones by lia.
  now rewrite Z.bit0_mod.
Qed.

Lemma field_bit c k : 0 <= k -> Z.land (Z.shiftr c k) 1 = Z.b2z (Z.testbit c k).
Proof.
  intros Hk. rewrite land_1_testbit, Z.shiftr_spec by lia.
  now replace (0 + k) with k by lia.
Qed.

Lemma field_bit_zero c k : 0 <= k -> (Z.land (Z.shiftr c k) 1 =? 0) = negb (Z.testbit c k).
Proof.
  intros Hk. rewrite field_bit by lia. now destruct (Z.testbit c k).
Qed.

Lemma field_two_bits c k : 0 <= Z.land (Z.shiftr c k) 3 <= 3.
Proof.
  pose proof (Z.land_ones (Z.shiftr c k) 2 ltac:(lia)) as H.
  change (Z.ones 2) with 3 in H. change (2 ^ 2) with 4 in H. rewrite H.
  pose proof (Z.mod_pos_bound (Z.shiftr c k) 4 ltac:(lia)). lia.
Qed.

Lemma lnot_mask n : 0 <= n -> Z.lnot (Z.shiftl 1 n - 1) = Z.lnot (Z.ones n).
Proof. intros _. now rewrite Z.ones_equiv, Z.shiftl_1_l, Z.sub_1_r. Qed.

Lemma land_lnot_mask x n :
  0 <= n -> Z.land x (Z.lnot (Z.shiftl 1 n - 1)) = clear_low x n.
Proof.
  intros Hn. rewrite lnot_mask by lia. rewrite <- Z.ldiff_land.
  rewrite Z.ldiff_ones_r by lia.
  now rewrite Z.shiftr_div_pow2, Z.shiftl_mul_pow2 by lia.
Qed.

End Bits.

(** * The loop of [count_trailing_ones] *)

Section CountTrailingOnes.

Lemma loop_step fuel x count :
  count_trailing_ones_loop (S fuel) x count =
    if Z.testbit x 0
    then count_trailing_ones_loop fuel (Z.shiftr x 1) (count + 1)
    else Val count.
Proof.
  cbn [count_trailing_ones_loop]. rewrite land_1_testbit.
  now destruct (Z.testbit x 0).
Qed.

(** On -1 every bit is 1 and the shift gives -1 again. *)
Lemma loop_minus_one fuel count :
  count_trailing_ones_loop fuel (-1) count = Diverges.
Proof.
  revert count. induction fuel as [|fuel IH]; intros count; [reflexivity|].
  rewrite loop_step. cbn. apply IH.
Qed.

Lemma trailing_ones_unique x n m : trailing_ones x n -> trailing_ones x m -> n = m.
Proof.
  intros (Hn & Hn1 & Hn0) (Hm & Hm1 & Hm0).
  destruct (Z.lt_trichotomy n m) as [Hlt | [-> | Hgt]]; [|reflexivity|].
  - rewrite Hm1 in Hn0 by lia. discriminate.
  - rewrite Hn1 in Hm0 by lia. discriminate.
Qed.

Lemma trailing_ones_shift x n :
  Z.testbit x 0 = true -> trailing_ones (Z.shiftr x 1) n -> trailing_ones x (n + 1).
Proof.
  intros H0 (Hn & H1 & Hz). split; [lia|]. split.
  - intros i Hi. destruct (Z.eq_dec i 0) as [-> | Hne]; [assumption|].
    specialize (H1 (i - 1) ltac:(lia)).
    rewrite Z.shiftr_spec in H1 by lia.
    now replace (i - 1 + 1) with i in H1 by lia.
  - rewrite Z.shiftr_spec in Hz by lia. assumption.
Qed.

(** What the loop returns is the accumulator plus the length of the run. *)
Lemma loop_spec fuel x count r :
  count_trailing_ones_loop fuel x count = Val r -> trailing_ones x (r - count).
Proof.
  revert x count. induction fuel as [|fuel IH]; intros x count; [discriminate|].
  rewrite loop_step. destruct (Z.testbit x 0) eqn:Hb.
  - intros H. apply IH in H.
    replace (r - count) with (r - (count + 1) + 1) by lia.
    now apply trailing_ones_shift.
  - intros [= <-]. replace (count - count) with 0 by lia.
    split; [lia|]. split; [intros; lia | assumption].
Qed.

(** A larger budget does not change a value already returned. *)
Lemma loop_mono fuel fuel' x count r :
  (fuel <= fuel')%nat ->
  count_trailing_ones_loop fuel x count = Val r ->
  count_trailing_ones_loop fuel' x count = Val r.
Proof.
  revert fuel' x count. induction fuel as [|fuel IH]; intros fuel' x count Hle; [discriminate|].
  destruct fuel' as [|fuel']; [lia|].
  rewrite !loop_step. destruct (Z.testbit x 0); [|trivial].
  apply IH. lia.
Qed.

(** The loop ends within [S n] tests on every [x] other than -1 that has
    [n] significant bits. *)
Lemma loop_enough (n : nat) x count :
  x <> -1 -> - 2 ^ Z.of_nat n <= x < 2 ^ Z.of_nat n ->
  exists r, count_trailing_ones_loop (S n) x count = Val r.
Proof.
  revert x count. induction n as [|n IH]; intros x count Hx Hr.
  - assert (x = 0) as -> by (cbn in Hr; lia). now exists count.
  - rewrite loop_step. destruct (Z.testbit x 0) eqn:Hb; [|now exists count].
    apply IH.
    + intros Hs. rewrite Z.shiftr_div_pow2 in Hs by lia. change (2 ^ 1) with 2 in Hs.
      assert (x = 2 * (x / 2) + x mod 2) as Hd by (apply Z.div_mod; lia).
      rewrite <- Z.bit0_mod, Hb in Hd. cbn [Z.b2z] in Hd. lia.
    + rewrite Z.shiftr_div_pow2 by lia. change (2 ^ 1) with 2.
      rewrite Nat2Z.inj_succ, Z.pow_succ_r in Hr by lia.
      split.
      * apply Z.div_le_lower_bound; lia.
      * apply Z.div_lt_upper_bound; lia.
Qed.

Lemma fuel_covers x :
  - 2 ^ Z.of_nat (Z.to_nat (Z.log2 (Z.abs x) + 1)) <= x
    < 2 ^ Z.of_nat (Z.to_nat (Z.log2 (Z.abs x) + 1)).
Proof.
  pose proof (Z.log2_nonneg (Z.abs x)) as Hl.
  rewrite Z2Nat.id by lia.
  destruct (Z.eq_dec x 0) as [-> | Hne].
  - cbn. lia.
  - pose proof (Z.log2_spec (Z.abs x) ltac:(lia)) as [_ Hu].
    rewrite <- Z.add_1_r in Hu. lia.
Qed.

Lemma count_trailing_ones_returns x :
  x <> -1 -> exists n, count_trailing_ones x = Val n /\ trailing_ones x n.
Proof.
  intros Hx. unfold count_trailing_ones, count_trailing_ones_fuel.
  destruct (loop_enough (Z.to_nat (Z.log2 (Z.abs x) + 1)) x 0 Hx (fuel_covers x)) as [r Hr].
  exists r. split; [assumption|].
  apply loop_spec in Hr. now rewrite Z.sub_0_r in Hr.
Qed.

Lemma count_trailing_ones_spec x n :
  count_trailing_ones x = Val n -> trailing_ones x n.
Proof.
  intros H. apply loop_spec in H. now rewrite Z.sub_0_r in H.
Qed.

Lemma count_trailing_ones_minus_one : count_trailing_ones (-1) = Diverges.
Proof. apply loop_minus_one. Qed.

(** [count_trailing_ones] never raises, and it is [Diverges] on -1 only. *)
Lemma count_trailing_ones_cases x :
  (x = -1 /\ count_trailing_ones x = Diverges) \/
  (x <> -1 /\ exists n, count_trailing_ones x = Val n /\ trailing_ones x n).
Proof.
  destruct (Z.eq_dec x (-1)) as [-> | Hne].
  - left. split; [reflexivity | apply count_trailing_ones_minus_one].
  - right. split; [assumption | now apply count_trailing_ones_returns].
Qed.

(** The value agrees with the loop at every budget at which the loop ends. *)
Lemma count_trailing_ones_adequate fuel x r :
  count_trailing_ones_loop fuel x 0 = Val r -> count_trailing_ones x = Val r.
Proof.
  intros H.
  assert (x <> -1) as Hx by (intros ->; now rewrite loop_minus_one in H).
  destruct (count_trailing_ones_returns x Hx) as (n & Hn & Hspec).
  rewrite Hn. f_equal.
  apply loop_spec in H. rewrite Z.sub_0_r in H.
  eapply trailing_ones_unique; eassumption.
Qed.

Lemma trailing_ones_zero : trailing_ones 0 0.
Proof. split; [lia|]. split; [intros; lia | reflexivity]. Qed.

End CountTrailingOnes.

(** * Decoding of regions *)

Section RegionBounds.

Import PMPRegion.

Lemma trailing_ones_not_minus_one x n : trailing_ones x n -> x <> -1.
Proof.
  intros (Hn & _ & Hz) ->. rewrite Z.bits_m1 in Hz by lia. discriminate.
Qed.

Lemma count_trailing_ones_complete x n :
  trailing_ones x n -> count_trailing_ones x = Val n.
Proof.
  intros H. destruct (count_trailing_ones_returns x (trailing_ones_not_minus_one x n H))
    as (m & Hm & Hspec).
  rewrite Hm. f_equal. eapply trailing_ones_unique; eassumption.
Qed.

Lemma bounds_off r : a r = 0 -> region_bounds r = Val (None, None).
Proof. intros H. unfold region_bounds. now rewrite H. Qed.

Lemma bounds_na4 r :
  a r = 2 ->
  region_bounds r = Val (Some (Z.shiftl (addr r) 2), Some (Z.shiftl (addr r) 2 + 4)).
Proof. intros H. unfold region_bounds. now rewrite H. Qed.

Lemma bounds_tor_first r :
  a r = 1 -> index r = 0 ->
  region_bounds r = Val (Some 0, Some (Z.shiftl (addr r) 2)).
Proof. intros H H0. unfold region_bounds. now rewrite H, H0. Qed.

Lemma py_index_lookup (l : list Z) (i : Z) (v : Z) :
  0 <= i -> l !! Z.to_nat i = Some v -> py_index l i = Val v.
Proof.
  intros Hi Hl. unfold py_index.
  pose proof (lookup_lt_Some _ _ _ Hl) as Hlt.
  destruct (i <? 0) eqn:Hneg; [lia|]. rewrite Hneg.
  destruct (Z.of_nat (length l) <=? i) eqn:Hhi; [lia|].
  cbn [orb]. now rewrite Hl.
Qed.

Lemma bounds_tor_next r p :
  a r = 1 -> 0 < index r ->
  all_pmpaddr r !! Z.to_nat (index r - 1) = Some p ->
  region_bounds r = Val (Some (Z.shiftl p 2), Some (Z.shiftl (addr r) 2)).
Proof.
  intros H Hi Hp. unfold region_bounds. rewrite H.
  destruct (index r =? 0) eqn:E; [lia|].
  cbn [Z.eqb Pos.eqb]. now rewrite (py_index_lookup _ _ p) by (lia || assumption).
Qed.

Lemma bounds_napot r n :
  a r = 3 -> count_trailing_ones (addr r) = Val n ->
  region_bounds r =
    Val (Some (Z.shiftl (clear_low (addr r) n) 2),
         Some (Z.shiftl (clear_low (addr r) n) 2 + 2 ^ (n + 3))).
Proof.
  intros H Hn. pose proof (count_trailing_ones_spec _ _ Hn) as (Hn0 & _).
  unfold region_bounds. rewrite H, Hn. cbn [Z.eqb Pos.eqb mbind result_bind].
  now rewrite land_lnot_mask, Z.shiftl_1_l by lia.
Qed.

Lemma bounds_napot_diverges r :
  a r = 3 -> addr r = -1 -> region_bounds r = Diverges.
Proof.
  intros H Hm. unfold region_bounds. rewrite H, Hm, count_trailing_ones_minus_one.
  reflexivity.
Qed.

Lemma bounds_reserved r :
  a r <> 0 -> a r <> 1 -> a r <> 2 -> a r <> 3 -> region_bounds r = Val (None, None).
Proof.
  intros H0 H1 H2 H3. unfold region_bounds.
  destruct (a r =? 0) eqn:E0; [lia|]. destruct (a r =? 1) eqn:E1; [lia|].
  destruct (a r =? 2) eqn:E2; [lia|]. destruct (a r =? 3) eqn:E3; [lia|].
  reflexivity.
Qed.

Lemma matches_bounds r phys lower upper :
  region_bounds r = Val (Some lower, Some upper) ->
  matches r phys = Val ((lower <=? phys) && (phys <? upper)).
Proof. intros H. unfold matches. now rewrite H. Qed.

Lemma matches_no_region r phys :
  region_bounds r = Val (None, None) -> matches r phys = Val false.
Proof. intros H. unfold matches. now rewrite H. Qed.

Lemma matches_contains r phys : region_contains r phys <-> matches r phys = Val true.
Proof.
  split.
  - intros (lo & up & Hb & Hin). rewrite (matches_bounds _ _ _ _ Hb). f_equal. lia.
  - unfold matches, region_contains.
    destruct (region_bounds r) as [[[lo|] [up|]]| |]; cbn; try discriminate.
    intros [= H]. exists lo, up. split; [reflexivity | lia].
Qed.

Lemma matches_misses r phys : region_misses r phys <-> matches r phys = Val false.
Proof.
  split.
  - intros (b & Hb & Hout). unfold matches. rewrite Hb.
    destruct b as [[lo|] [up|]]; cbn; try reflexivity. f_equal. lia.
  - unfold matches, region_misses.
    destruct (region_bounds r) as [[[lo|] [up|]]| |]; cbn; try discriminate;
      intros H; eexists; (split; [reflexivity|]); cbn; try exact I.
    injection H as H. lia.
Qed.

(** Bit [n], the one above the run, is 0: what is left after clearing the
    run is a multiple of [2 ^ (n + 1)]. *)
Lemma clear_low_aligned x n :
  trailing_ones x n -> exists q, clear_low x n = q * 2 ^ (n + 1).
Proof.
  intros (Hn & _ & Hz). unfold clear_low.
  assert ((x / 2 ^ n) mod 2 = 0) as Heven.
  { rewrite <- Z.shiftr_div_pow2, <- Z.bit0_mod, Z.shiftr_spec by lia.
    replace (0 + n) with n by lia. now rewrite Hz. }
  exists (x / 2 ^ n / 2).
  rewrite Z.pow_add_r, Z.pow_1_r by lia.
  pose proof (Z.div_mod (x / 2 ^ n) 2 ltac:(lia)) as Hd. nia.
Qed.

End RegionBounds.

Section ClearLow.

Lemma clear_low_bits x n i :
  0 <= n -> 0 <= i -> Z.testbit (clear_low x n) i = (n <=? i) && Z.testbit x i.
Proof.
  intros Hn Hi. unfold clear_low.
  rewrite <- Z.shiftr_div_pow2, <- Z.shiftl_mul_pow2, <- Z.ldiff_ones_r by lia.
  rewrite Z.ldiff_spec, Z.testbit_ones_nonneg by lia.
  destruct (Z.leb_spec n i), (Z.ltb_spec i n); try lia;
    cbn; now rewrite ?andb_true_r, ?andb_false_r.
Qed.

Lemma clear_low_ldiff x n : 0 <= n -> clear_low x n = Z.ldiff x (Z.ones n).
Proof.
  intros Hn. unfold clear_low.
  now rewrite <- Z.shiftr_div_pow2, <- Z.shiftl_mul_pow2, <- Z.ldiff_ones_r by lia.
Qed.

End ClearLow.

(** * NAPOT encoding *)

Section NapotEncoding.

Variables (B k : Z).
Hypothesis k_min : 3 <= k.
Hypothesis aligned : (2 ^ k | B).

Lemma size_field : 2 ^ k / 8 - 1 = Z.ones (k - 3).
Proof.
  rewrite Z.ones_equiv, <- Z.sub_1_r. f_equal.
  replace k with (k - 3 + 3) at 1 by lia.
  rewrite Z.pow_add_r by lia. change (2 ^ 3) with 8.
  now rewrite Z.div_mul by lia.
Qed.

Lemma base_low_bits i : i < k -> Z.testbit B i = false.
Proof.
  intros Hi. destruct aligned as [m ->].
  destruct (Z.neg_nonneg_cases i); [now apply Z.testbit_neg_r|].
  apply Z.mul_pow2_bits_low. lia.
Qed.

Lemma napot_encode_bits i :
  0 <= i ->
  Z.testbit (napot_encode B (2 ^ k)) i = Z.testbit B (i + 2) || (i <? k - 3).
Proof.
  intros Hi. unfold napot_encode.
  rewrite size_field, Z.lor_spec, Z.shiftr_spec, Z.testbit_ones_nonneg by lia.
  reflexivity.
Qed.

Lemma napot_encode_run : trailing_ones (napot_encode B (2 ^ k)) (k - 3).
Proof.
  split; [lia|]. split.
  - intros i Hi. rewrite napot_encode_bits by lia.
    destruct (Z.ltb_spec i (k - 3)); [apply orb_true_r | lia].
  - rewrite napot_encode_bits, base_low_bits by lia.
    destruct (Z.ltb_spec (k - 3) (k - 3)); [lia | reflexivity].
Qed.

Lemma napot_encode_base : Z.shiftl (clear_low (napot_encode B (2 ^ k)) (k - 3)) 2 = B.
Proof.
  apply Z.bits_inj'. intros i Hi.
  destruct (Z.ltb_spec i 2) as [Hlo | Hhi].
  - rewrite Z.shiftl_spec_low, base_low_bits by lia. reflexivity.
  - rewrite Z.shiftl_spec, clear_low_bits, napot_encode_bits by lia.
    replace (i - 2 + 2) with i by lia.
    destruct (Z.leb_spec (k - 3) (i - 2)), (Z.ltb_spec (i - 2) (k - 3)); try lia; cbn.
    + apply orb_false_r.
    + symmetry. apply base_low_bits. lia.
Qed.

End NapotEncoding.

(** * Properties of the decoder *)

Section DecoderProperties.

Import PMPRegion.

(** C5.  NAPOT decoding: with [n] the length of the run of 1 bits of the
    raw address that starts at bit 0, an entry in NAPOT mode decodes to the
    half-open interval whose lower bound is the raw address with its low
    [n] bits cleared, shifted left by 2, and whose size is [2^(n+3)]; the
    raw address 0 decodes to [0, 8).  (The raw address is a register
    value; all the statement needs of it is that it is not -1.) *)
Theorem napot_decoding (r : t) :
  a r = 3 -> addr r <> -1 ->
  exists n base,
    trailing_ones (addr r) n /\
    (forall i, 0 <= i -> Z.testbit base i = (n <=? i) && Z.testbit (addr r) i) /\
    region_bounds r = Val (Some (Z.shiftl base 2), Some (Z.shiftl base 2 + 2 ^ (n + 3))) /\
    (forall phys_addr,
       matches r phys_addr =
         Val ((Z.shiftl base 2 <=? phys_addr) && (phys_addr <? Z.shiftl base 2 + 2 ^ (n + 3)))) /\
    (addr r = 0 -> region_bounds r = Val (Some 0, Some 8)).
Proof.
  intros Ha Hx.
  destruct (count_trailing_ones_returns (addr r) Hx) as (n & Hn & Hrun).
  pose proof Hrun as (Hn0 & _).
  pose proof (bounds_napot r n Ha Hn) as Hb.
  exists n, (clear_low (addr r) n). repeat split; try apply Hrun.
  - intros i Hi. now apply clear_low_bits.
  - exact Hb.
  - intros phys_addr. now apply matches_bounds.
  - intros H0. rewrite H0 in Hrun.
    rewrite (trailing_ones_unique _ _ _ Hrun trailing_ones_zero) in Hb.
    rewrite Hb, H0. reflexivity.
Qed.

Lemma napot_decoding_witness :
  exists r, a r = 3 /\ addr r = 0x401 /\
    exists n, trailing_ones (addr r) n.
Proof.
  exists (init 0 0x7C 0x401 []).
  split; [reflexivity|]. split; [reflexivity|].
  destruct (napot_decoding (init 0 0x7C 0x401 []) eq_refl ltac:(discriminate))
    as (n & _ & Hrun & _).
  exists n. exact Hrun.
Defined.

(** C6.  TOR decoding: the entry of index 0 with raw address [a] decodes
    to [0, a<<2); an entry of index i>0 whose preceding raw address is [p]
    decodes to [p<<2, a<<2); when the upper bound is not above the lower
    one the region is empty: [matches] returns false at every address and
    raises nothing. *)
Theorem tor_decoding (r : t) :
  a r = 1 ->
  (index r = 0 ->
     region_bounds r = Val (Some 0, Some (Z.shiftl (addr r) 2)) /\
     (forall phys_addr,
        matches r phys_addr = Val ((0 <=? phys_addr) && (phys_addr <? Z.shiftl (addr r) 2))) /\
     (Z.shiftl (addr r) 2 <= 0 -> forall phys_addr, matches r phys_addr = Val false)) /\
  (forall p, 0 < index r -> all_pmpaddr r !! Z.to_nat (index r - 1) = Some p ->
     region_bounds r = Val (Some (Z.shiftl p 2), Some (Z.shiftl (addr r) 2)) /\
     (forall phys_addr,
        matches r phys_addr =
          Val ((Z.shiftl p 2 <=? phys_addr) && (phys_addr <? Z.shiftl (addr r) 2))) /\
     (Z.shiftl (addr r) 2 <= Z.shiftl p 2 ->
      forall phys_addr, matches r phys_addr = Val false)).
Proof.
  intros Ha. split.
  - intros H0. pose proof (bounds_tor_first r Ha H0) as Hb.
    split; [exact Hb|]. split.
    + intros phys_addr. now apply matches_bounds.
    + intros He phys_addr. rewrite (matches_bounds _ _ _ _ Hb). f_equal. lia.
  - intros p Hi Hp. pose proof (bounds_tor_next r p Ha Hi Hp) as Hb.
    split; [exact Hb|]. split.
    + intros phys_addr. now apply matches_bounds.
    + intros He phys_addr. rewrite (matches_bounds _ _ _ _ Hb). f_equal. lia.
Qed.

Lemma tor_decoding_witness :
  region_bounds (init 1 0x28 0x10 [0x20; 0x10]) = Val (Some 0x80, Some 0x40) /\
  matches (init 1 0x28 0x10 [0x20; 0x10]) 0x50 = Val false.
Proof.
  destruct (tor_decoding (init 1 0x28 0x10 [0x20; 0x10]) eq_refl) as [_ H].
  destruct (H 0x20 ltac:(reflexivity) eq_refl) as (Hb & _ & He).
  split; [exact Hb|]. apply He. discriminate.
Defined.

(** C7, as stated, fails: base 8 is 8-byte aligned and size 16 is 2^4,
    but the canonical value 3 decodes to [0, 32), not to [8, 24). *)
Lemma napot_round_trip_needs_size_alignment :
  8 mod 8 = 0 /\ 16 = 2 ^ 4 /\ napot_encode 8 16 = 3 /\
  region_bounds (init 0 0x60 (napot_encode 8 16) []) = Val (Some 0, Some 32) /\
  region_bounds (init 0 0x60 (napot_encode 8 16) []) <> Val (Some 8, Some (8 + 16)).
Proof. repeat split. discriminate. Qed.

(** C7, amended.  NAPOT round trip for a base aligned to the size: for
    every size S = 2^k with k >= 3 and every base B that is a multiple of
    S, decoding the canonical raw address (B >> 2) | (S/8 - 1) in NAPOT
    mode gives exactly [B, B+S). *)
Theorem napot_round_trip (B k : Z) (r : t) :
  3 <= k -> (2 ^ k | B) ->
  a r = 3 -> addr r = napot_encode B (2 ^ k) ->
  region_bounds r = Val (Some B, Some (B + 2 ^ k)).
Proof.
  intros Hk HB Ha Hx.
  pose proof (napot_encode_run B k Hk HB) as Hrun.
  rewrite (bounds_napot r (k - 3) Ha) by (rewrite Hx; now apply count_trailing_ones_complete).
  rewrite Hx, napot_encode_base by assumption.
  now replace (k - 3 + 3) with k by lia.
Qed.

Lemma napot_round_trip_witness :
  region_bounds (init 0 0x60 (napot_encode 0x1000 (2 ^ 4)) []) =
    Val (Some 0x1000, Some (0x1000 + 2 ^ 4)).
Proof.
  apply (napot_round_trip 0x1000 4); [lia | | reflexivity | reflexivity].
  exists 0x100. reflexivity.
Defined.

(** C8, as stated, fails: an entry whose mode field holds 4 is decoded
    without any error, to no region, exactly as an OFF entry. *)
Lemma reserved_mode_decodes_as_off :
  a (mk 0 0x80 0x10 [] 1 4 0 0 0) = 4 /\
  region_bounds (mk 0 0x80 0x10 [] 1 4 0 0 0) = Val (None, None) /\
  region_bounds (mk 0 0x80 0x10 [] 1 4 0 0 0) = region_bounds (init 0 0x80 0x10 []) /\
  a (init 0 0x80 0x10 []) = 0.
Proof. repeat split. Qed.

(** C8, amended.  A mode value outside {0, 1, 2, 3} cannot come from a
    configuration value, whose mode field is masked to two bits; on an
    entry whose mode field holds such a value all the same, the decoder
    raises nothing and returns no region, so that the entry matches no
    address, as an OFF entry does. *)
Theorem reserved_mode_no_region (r : t) :
  a r <> 0 -> a r <> 1 -> a r <> 2 -> a r <> 3 ->
  region_bounds r = Val (None, None) /\
  (forall phys_addr, matches r phys_addr = Val false) /\
  (forall index cfg addr all_pmpaddr, r <> init index cfg addr all_pmpaddr).
Proof.
  intros H0 H1 H2 H3. pose proof (bounds_reserved r H0 H1 H2 H3) as Hb.
  split; [exact Hb|]. split.
  - intros phys_addr. now apply matches_no_region.
  - intros i c x l ->. cbn in H0, H1, H2, H3.
    pose proof (field_two_bits c 5). lia.
Qed.

Lemma reserved_mode_no_region_witness :
  region_bounds (mk 0 0x80 0x10 [] 1 4 0 0 0) = Val (None, None).
Proof.
  apply (reserved_mode_no_region (mk 0 0x80 0x10 [] 1 4 0 0 0)); discriminate.
Defined.

(** C9.  NAPOT natural alignment: for a non-negative raw address whose
    run of low 1 bits has length [n], bit [n] is 0, the raw address with
    its low [n] bits cleared is a multiple of [2^(n+1)], and the lower
    bound of the decoded region is a multiple of its size [2^(n+3)]. *)
Theorem napot_natural_alignment (r : t) :
  a r = 3 -> 0 <= addr r ->
  exists n lower,
    trailing_ones (addr r) n /\
    region_bounds r = Val (Some lower, Some (lower + 2 ^ (n + 3))) /\
    Z.testbit (addr r) n = false /\
    (2 ^ (n + 1) | clear_low (addr r) n) /\
    lower = Z.shiftl (clear_low (addr r) n) 2 /\
    (2 ^ (n + 3) | lower).
Proof.
  intros Ha Hx.
  destruct (count_trailing_ones_returns (addr r) ltac:(lia)) as (n & Hn & Hrun).
  pose proof Hrun as (Hn0 & _ & Hz).
  destruct (clear_low_aligned _ _ Hrun) as [q Hq].
  exists n, (Z.shiftl (clear_low (addr r) n) 2).
  split; [exact Hrun|]. split; [now apply bounds_napot|]. split; [exact Hz|].
  split; [now exists q|]. split; [reflexivity|].
  exists q. rewrite Z.shiftl_mul_pow2, Hq by lia.
  replace (n + 3) with (n + 1 + 2) by lia. rewrite (Z.pow_add_r 2 (n + 1) 2) by lia. lia.
Qed.

Lemma napot_natural_alignment_witness :
  exists n lower,
    region_bounds (init 0 0x7C 0x401 []) = Val (Some lower, Some (lower + 2 ^ (n + 3))) /\
    (2 ^ (n + 3) | lower).
Proof.
  destruct (napot_natural_alignment (init 0 0x7C 0x401 []) eq_refl ltac:(discriminate))
    as (n & lower & _ & Hb & _ & _ & _ & Hd).
  exists n, lower. split; assumption.
Defined.

End DecoderProperties.

(** * The scan of [main] *)

Section Scan.

Import PMPRegion.

Lemma mapM_result_Val {A B : Type} (f : A -> result B) (g : A -> B) (l : list A) :
  (forall x, x ∈ l -> f x = Val (g x)) -> mapM f l = Val (g <$> l).
Proof.
  induction l as [|x l IH]; intros Hf; [reflexivity|].
  cbn [mapM]. rewrite Hf by apply list_elem_of_here.
  cbn [mbind result_bind]. rewrite IH by (intros y Hy; apply Hf; now apply list_elem_of_further).
  reflexivity.
Qed.

(** The loop stops at the first region that matches. *)
Lemma scan_first_match (regions : list t) phys_addr mode operation (i : nat) r :
  regions !! i = Some r ->
  matches r phys_addr = Val true ->
  (forall j r', (j < i)%nat -> regions !! j = Some r' -> matches r' phys_addr = Val false) ->
  scan_regions regions phys_addr mode operation =
    Val (Some (if String.eqb mode "M" && (L r =? 0) then Access_allowed
               else if permits r operation mode then Access_allowed
               else Access_fault)).
Proof.
  revert i. induction regions as [|r0 rest IH]; intros i Hi Hm Hbefore; [discriminate|].
  cbn [scan_regions]. destruct i as [|i].
  - injection Hi as ->. rewrite Hm. cbn [mbind result_bind].
    destruct (String.eqb mode "M" && (L r =? 0)); [reflexivity|].
    now destruct (permits r operation mode).
  - rewrite (Hbefore 0%nat r0) by (lia || reflexivity). cbn [mbind result_bind].
    apply (IH i); [exact Hi | exact Hm |].
    intros j r' Hj Hr'. apply (Hbefore (S j)); [lia | exact Hr'].
Qed.

Lemma scan_no_match (regions : list t) phys_addr mode operation :
  (forall i r, regions !! i = Some r -> matches r phys_addr = Val false) ->
  scan_regions regions phys_addr mode operation = Val None.
Proof.
  induction regions as [|r0 rest IH]; intros Hall; [reflexivity|].
  cbn [scan_regions]. rewrite (Hall 0%nat r0) by reflexivity. cbn [mbind result_bind].
  apply IH. intros i r Hr. now apply (Hall (S i)).
Qed.

Lemma any_pmp_true (l : list Z) :
  existsb (fun cfg => negb (Z.land (Z.shiftr cfg 5) 3 =? 0)) l = true <->
  exists i c, l !! i = Some c /\ Z.land (Z.shiftr c 5) 3 <> 0.
Proof.
  rewrite existsb_exists. split.
  - intros (c & Hin & Hc). apply list_elem_of_In, list_elem_of_lookup in Hin as [i Hi].
    exists i, c. split; [exact Hi|]. destruct (Z.eqb_spec (Z.land (Z.shiftr c 5) 3) 0);
      [discriminate | assumption].
  - intros (i & c & Hi & Hc). exists c. split.
    + apply list_elem_of_In, list_elem_of_lookup. now exists i.
    + now destruct (Z.eqb_spec (Z.land (Z.shiftr c 5) 3) 0).
Qed.

Variables (pmpcfg pmpaddr : list Z).
Hypothesis cfg_64 : length pmpcfg = 64%nat.
Hypothesis addr_64 : length pmpaddr = 64%nat.

(** The list of regions is built without an [IndexError], and its entry
    [i] is [entry_at pmpcfg pmpaddr i]. *)
Lemma build_regions_entries :
  exists regions,
    build_regions pmpcfg pmpaddr = Val regions /\
    forall i, regions !! i = entry_at pmpcfg pmpaddr i.
Proof.
  set (g := fun i : Z =>
    init i (default 0 (pmpcfg !! Z.to_nat i)) (default 0 (pmpaddr !! Z.to_nat i)) pmpaddr).
  exists (g <$> seqZ 0 64). split.
  - apply mapM_result_Val. intros i Hi. apply elem_of_seqZ in Hi.
    destruct (lookup_lt_is_Some_2 pmpcfg (Z.to_nat i) ltac:(lia)) as [c Hc].
    destruct (lookup_lt_is_Some_2 pmpaddr (Z.to_nat i) ltac:(lia)) as [x Hx].
    rewrite (py_index_lookup pmpcfg i c) by (lia || assumption).
    cbn [mbind result_bind].
    rewrite (py_index_lookup pmpaddr i x) by (lia || assumption).
    unfold g. now rewrite Hc, Hx.
  - intros i. rewrite list_lookup_fmap. unfold entry_at.
    destruct (Nat.lt_ge_cases i 64) as [Hlt | Hge].
    + rewrite lookup_seqZ_lt by lia.
      destruct (lookup_lt_is_Some_2 pmpcfg i ltac:(lia)) as [c Hc].
      destruct (lookup_lt_is_Some_2 pmpaddr i ltac:(lia)) as [x Hx].
      rewrite Hc, Hx. cbn. unfold g. rewrite Z.add_0_l, Nat2Z.id, Hc, Hx. reflexivity.
    + rewrite lookup_seqZ_ge by lia.
      rewrite (lookup_ge_None_2 pmpcfg i) by lia. reflexivity.
Qed.

Lemma entry_at_init i r :
  entry_at pmpcfg pmpaddr i = Some r ->
  exists c x, pmpcfg !! i = Some c /\ pmpaddr !! i = Some x /\
              r = init (Z.of_nat i) c x pmpaddr.
Proof.
  unfold entry_at. destruct (pmpcfg !! i) as [c|]; [|discriminate].
  destruct (pmpaddr !! i) as [x|]; [|discriminate].
  cbn. intros [= <-]. now exists c, x.
Qed.

Lemma entry_at_Some i c :
  pmpcfg !! i = Some c -> exists r, entry_at pmpcfg pmpaddr i = Some r /\ a r = Z.land (Z.shiftr c 5) 3.
Proof.
  intros Hc. pose proof (lookup_lt_Some _ _ _ Hc) as Hlt.
  destruct (lookup_lt_is_Some_2 pmpaddr i ltac:(lia)) as [x Hx].
  exists (init (Z.of_nat i) c x pmpaddr). unfold entry_at. now rewrite Hc, Hx.
Qed.

(** [main] at a first match. *)
Lemma main_first_match phys_addr mode operation i r :
  first_match pmpcfg pmpaddr phys_addr i r ->
  main pmpcfg pmpaddr phys_addr mode operation =
    Val (if String.eqb mode "M" && (L r =? 0) then Access_allowed
         else if permits r operation mode then Access_allowed
         else Access_fault).
Proof.
  intros (Hi & Hin & Hbefore).
  destruct build_regions_entries as (regions & Hbuild & Hentries).
  unfold main. rewrite Hbuild. cbn [mbind result_bind].
  rewrite (scan_first_match regions phys_addr mode operation i r).
  - reflexivity.
  - now rewrite Hentries.
  - now apply matches_contains.
  - intros j r' Hj Hr'. apply matches_misses. apply (Hbefore j); [exact Hj|].
    now rewrite <- Hentries.
Qed.

(** [main] when no region matches. *)
Lemma main_no_match phys_addr mode operation :
  no_match pmpcfg pmpaddr phys_addr ->
  main pmpcfg pmpaddr phys_addr mode operation =
    Val (if existsb (fun cfg => negb (Z.land (Z.shiftr cfg 5) 3 =? 0)) pmpcfg
            && (String.eqb mode "S" || String.eqb mode "U")
         then Access_fault else Access_allowed).
Proof.
  intros Hnone.
  destruct build_regions_entries as (regions & Hbuild & Hentries).
  unfold main. rewrite Hbuild. cbn [mbind result_bind].
  rewrite scan_no_match.
  - cbn [mbind result_bind]. now destruct (_ && _).
  - intros i r Hr. apply matches_misses. apply (Hnone i). now rewrite <- Hentries.
Qed.

End Scan.

(** * Entries and prefixes of a configuration *)

Section Entries.

Import PMPRegion.

Lemma permits_has_permission i c x l operation mode :
  permits (init i c x l) operation mode = has_permission c operation.
Proof.
  unfold permits, has_permission, permission_bit. cbn [R W X init].
  rewrite !field_bit_zero, !negb_involutive by lia.
  destruct (String.eqb_spec operation "R") as [-> | _].
  { cbn -[Z.testbit]. now destruct (Z.testbit c 2). }
  destruct (String.eqb_spec operation "W") as [-> | _].
  { cbn -[Z.testbit]. now destruct (Z.testbit c 3). }
  destruct (String.eqb_spec operation "X") as [-> | _].
  { cbn -[Z.testbit]. now destruct (Z.testbit c 4). }
  reflexivity.
Qed.

Lemma permits_fields r r' operation mode :
  R r' = R r -> W r' = W r -> X r' = X r ->
  permits r' operation mode = permits r operation mode.
Proof. intros HR HW HX. unfold permits. now rewrite HR, HW, HX. Qed.

(** The bounds of entry [i] read the list of address registers at index
    [i - 1] only. *)
Lemma bounds_init_ext (i : nat) c x (l l' : list Z) :
  length l = length l' ->
  (forall j, (j < i)%nat -> l !! j = l' !! j) ->
  region_bounds (init (Z.of_nat i) c x l) = region_bounds (init (Z.of_nat i) c x l').
Proof.
  intros Hlen Hagree. unfold region_bounds. cbn [a index addr all_pmpaddr init].
  destruct (Z.eqb_spec (Z.of_nat i) 0) as [E | E]; [reflexivity|].
  assert (py_index l (Z.of_nat i - 1) = py_index l' (Z.of_nat i - 1)) as ->; [|reflexivity].
  unfold py_index. rewrite Hlen.
  destruct (Z.ltb_spec (Z.of_nat i - 1) 0) as [Hneg | Hneg]; [lia|].
  now rewrite (Hagree (Z.to_nat (Z.of_nat i - 1))) by lia.
Qed.

(** A first match is kept by every configuration with the same entries up
    to it. *)
Lemma first_match_prefix (pmpcfg pmpaddr pmpcfg' pmpaddr' : list Z) phys_addr i r :
  length pmpaddr = length pmpaddr' ->
  (forall j, (j <= i)%nat -> pmpcfg' !! j = pmpcfg !! j /\ pmpaddr' !! j = pmpaddr !! j) ->
  first_match pmpcfg pmpaddr phys_addr i r ->
  exists r', first_match pmpcfg' pmpaddr' phys_addr i r' /\
             L r' = L r /\ R r' = R r /\ W r' = W r /\ X r' = X r.
Proof.
  intros Hlen Hagree (Hi & Hin & Hbefore).
  assert (forall j rj, (j <= i)%nat -> entry_at pmpcfg' pmpaddr' j = Some rj ->
            exists rj0, entry_at pmpcfg pmpaddr j = Some rj0 /\
                        region_bounds rj = region_bounds rj0 /\
                        L rj = L rj0 /\ R rj = R rj0 /\ W rj = W rj0 /\ X rj = X rj0) as Hsame.
  { intros j rj Hj Hrj. apply entry_at_init in Hrj as (c & x & Hc & Hx & ->).
    destruct (Hagree j Hj) as [Ec Ex]. rewrite Ec in Hc. rewrite Ex in Hx.
    exists (init (Z.of_nat j) c x pmpaddr). unfold entry_at. rewrite Hc, Hx.
    split; [reflexivity|]. split; [|now repeat split].
    apply bounds_init_ext; [now symmetry|].
    intros m Hm. apply Hagree. lia. }
  apply entry_at_init in Hi as Hinit. destruct Hinit as (c & x & Hc & Hx & Hr).
  destruct (Hagree i ltac:(lia)) as [Ec Ex].
  exists (init (Z.of_nat i) c x pmpaddr').
  assert (entry_at pmpcfg' pmpaddr' i = Some (init (Z.of_nat i) c x pmpaddr')) as Hi'.
  { unfold entry_at. now rewrite Ec, Ex, Hc, Hx. }
  destruct (Hsame i _ ltac:(lia) Hi') as (r0 & Hr0 & Hb & HL & HR & HW & HX).
  rewrite Hi in Hr0. injection Hr0 as <-.
  split; [|now repeat split].
  split; [exact Hi'|]. split.
  - destruct Hin as (lo & up & Hbounds & Hrange). exists lo, up. now rewrite Hb.
  - intros j rj Hj Hrj.
    destruct (Hsame j rj ltac:(lia) Hrj) as (rj0 & Hrj0 & Hbj & _).
    destruct (Hbefore j rj0 Hj Hrj0) as (b & Hbounds & Hout).
    exists b. now rewrite Hbj.
Qed.

(** Every entry of a 64-entry configuration whose address registers are
    not negative is decoded: its bounds are computed, nothing is raised and
    the loop of [count_trailing_ones] ends. *)
Lemma entry_decodes (pmpcfg pmpaddr : list Z) i r :
  length pmpaddr = 64%nat ->
  (forall j x, pmpaddr !! j = Some x -> 0 <= x) ->
  entry_at pmpcfg pmpaddr i = Some r ->
  exists bounds, region_bounds r = Val bounds.
Proof.
  intros Hlen Hpos Hr. apply entry_at_init in Hr as (c & x & Hc & Hx & ->).
  pose proof (lookup_lt_Some _ _ _ Hx) as Hi.
  pose proof (field_two_bits c 5) as Hmode.
  set (r := init (Z.of_nat i) c x pmpaddr).
  assert (a r = Z.land (Z.shiftr c 5) 3) as Ha by reflexivity.
  assert (a r = 0 \/ a r = 1 \/ a r = 2 \/ a r = 3) as [H | [H | [H | H]]] by lia.
  - eexists. now apply bounds_off.
  - destruct i as [|i].
    + eexists. now apply bounds_tor_first.
    + destruct (lookup_lt_is_Some_2 pmpaddr i ltac:(lia)) as [p Hp].
      eexists. apply (bounds_tor_next r p H); cbn [index r init]; [lia|].
      now replace (Z.to_nat (Z.of_nat (S i) - 1)) with i by lia.
  - eexists. now apply bounds_na4.
  - destruct (count_trailing_ones_returns x) as (n & Hn & _).
    { pose proof (Hpos i x Hx). lia. }
    eexists. now apply (bounds_napot r n).
Qed.

Lemma scan_returns (regions : list t) phys_addr mode operation :
  (forall r, r ∈ regions -> exists bounds, region_bounds r = Val bounds) ->
  exists printed, scan_regions regions phys_addr mode operation = Val printed.
Proof.
  induction regions as [|r0 rest IH]; intros Hall; [now eexists|].
  cbn [scan_regions]. destruct (Hall r0 (list_elem_of_here _ _)) as [b Hb].
  unfold matches at 1. rewrite Hb. cbn [mbind result_bind].
  assert (exists m : bool,
            (let '(lower, upper) := b in
             match lower, upper with
             | Some lower, Some upper =>
                 Val ((lower <=? phys_addr) && (phys_addr <? upper))
             | _, _ => Val false
             end) = Val m) as [m ->].
  { destruct b as [[lo|] [up|]]; now eexists. }
  cbn [mbind result_bind]. destruct m.
  - destruct (_ && _); [now eexists|]. destruct (permits _ _ _); now eexists.
  - apply IH. intros r Hr. apply Hall. now apply list_elem_of_further.
Qed.

(** X8.  On register values [main] answers: with 64 values in each list
    and no negative address register, [main] raises nothing, returns, and
    prints one of the two lines. *)
Lemma main_total (pmpcfg pmpaddr : list Z) phys_addr mode operation :
  length pmpcfg = 64%nat -> length pmpaddr = 64%nat ->
  (forall j x, pmpaddr !! j = Some x -> 0 <= x) ->
  main pmpcfg pmpaddr phys_addr mode operation = Val Access_allowed \/
  main pmpcfg pmpaddr phys_addr mode operation = Val Access_fault.
Proof.
  intros Hc Hx Hpos.
  destruct (build_regions_entries pmpcfg pmpaddr Hc Hx) as (regions & Hbuild & Hentries).
  destruct (scan_returns regions phys_addr mode operation) as [printed Hscan].
  { intros r Hr. apply list_elem_of_lookup in Hr as [i Hi]. rewrite Hentries in Hi.
    now apply (entry_decodes pmpcfg pmpaddr i r). }
  unfold main. rewrite Hbuild. cbn [mbind result_bind]. rewrite Hscan. cbn [mbind result_bind].
  destruct printed as [line|].
  - revert Hscan. clear. induction regions as [|r0 rest IH]; [discriminate|].
    cbn [scan_regions]. destruct (matches r0 phys_addr) as [[|]| |]; cbn [mbind result_bind];
      try discriminate; [|exact IH].
    destruct (_ && _); [intros [= <-]; now left|].
    destruct (permits _ _ _); intros [= <-]; [now left | now right].
  - destruct (_ && _); [now right | now left].
Qed.

(** A check by evaluation that no entry matches. *)
Lemma no_match_by_scan (pmpcfg pmpaddr : list Z) phys_addr regions :
  length pmpcfg = 64%nat -> length pmpaddr = 64%nat ->
  build_regions pmpcfg pmpaddr = Val regions ->
  forallb (fun r => match matches r phys_addr with Val false => true | _ => false end)
          regions = true ->
  no_match pmpcfg pmpaddr phys_addr.
Proof.
  intros Hc Hx Hbuild Hall i r Hr.
  destruct (build_regions_entries pmpcfg pmpaddr Hc Hx) as (regions' & Hbuild' & Hentries).
  rewrite Hbuild in Hbuild'. injection Hbuild' as <-.
  rewrite <- Hentries in Hr. apply list_elem_of_lookup_2, list_elem_of_In in Hr.
  rewrite forallb_forall in Hall. specialize (Hall r Hr).
  apply matches_misses. destruct (matches r phys_addr) as [[|]| |]; congruence.
Qed.

End Entries.

(** * Properties of the evaluation *)

Section EvaluatorProperties.

Import PMPRegion.

Example sample_write : main sample_pmpcfg sample_pmpaddr 0x1004 "S" "W" = Val Access_allowed.
Proof. reflexivity. Qed.

Example sample_execute : main sample_pmpcfg sample_pmpaddr 0x1004 "S" "X" = Val Access_fault.
Proof. reflexivity. Qed.

Example sample_unmatched_supervisor :
  main sample_pmpcfg sample_pmpaddr 0x2000 "S" "R" = Val Access_fault.
Proof. reflexivity. Qed.

Example sample_unmatched_machine :
  main sample_pmpcfg sample_pmpaddr 0x2000 "M" "R" = Val Access_allowed.
Proof. reflexivity. Qed.

Lemma sample_first_match :
  first_match sample_pmpcfg sample_pmpaddr 0x1004 0 (init 0 0x6C 0x401 sample_pmpaddr).
Proof.
  split; [reflexivity|]. split.
  - exists 0x1000, 0x1010. split; [reflexivity | lia].
  - intros j r' Hj. lia.
Defined.

Lemma sample_no_match : no_match sample_pmpcfg sample_pmpaddr 0x2000.
Proof.
  apply (no_match_by_scan _ _ _ (init 0 0x6C 0x401 sample_pmpaddr
                                 :: init 1 0x50 0x401 sample_pmpaddr
                                 :: map (fun i => init i 0 0 sample_pmpaddr) (seqZ 2 62)));
    reflexivity.
Defined.

(** C1.  First match wins: when entry [i] is the entry of lowest index
    whose region contains the address, the line printed is a function of
    the lock bit and of the permission bits of that entry (and of the
    request) alone: every configuration whose first matching entry has the
    same four bits prints the same line, and so does every configuration
    with the same entries up to [i], whatever its entries after [i] are. *)
Theorem first_match_wins (pmpcfg pmpaddr : list Z) phys_addr mode operation i r :
  length pmpcfg = 64%nat -> length pmpaddr = 64%nat ->
  first_match pmpcfg pmpaddr phys_addr i r ->
  main pmpcfg pmpaddr phys_addr mode operation =
    Val (if String.eqb mode "M" && (L r =? 0) then Access_allowed
         else if permits r operation mode then Access_allowed
         else Access_fault) /\
  (forall (pmpcfg' pmpaddr' : list Z) i' r',
     length pmpcfg' = 64%nat -> length pmpaddr' = 64%nat ->
     first_match pmpcfg' pmpaddr' phys_addr i' r' ->
     L r' = L r -> R r' = R r -> W r' = W r -> X r' = X r ->
     main pmpcfg' pmpaddr' phys_addr mode operation =
     main pmpcfg pmpaddr phys_addr mode operation) /\
  (forall (pmpcfg' pmpaddr' : list Z),
     length pmpcfg' = 64%nat -> length pmpaddr' = 64%nat ->
     (forall j, (j <= i)%nat ->
        pmpcfg' !! j = pmpcfg !! j /\ pmpaddr' !! j = pmpaddr !! j) ->
     main pmpcfg' pmpaddr' phys_addr mode operation =
     main pmpcfg pmpaddr phys_addr mode operation).
Proof.
  intros Hc Hx Hfirst.
  pose proof (main_first_match pmpcfg pmpaddr Hc Hx phys_addr mode operation i r Hfirst) as Hmain.
  assert (forall (pmpcfg' pmpaddr' : list Z) i' r',
     length pmpcfg' = 64%nat -> length pmpaddr' = 64%nat ->
     first_match pmpcfg' pmpaddr' phys_addr i' r' ->
     L r' = L r -> R r' = R r -> W r' = W r -> X r' = X r ->
     main pmpcfg' pmpaddr' phys_addr mode operation =
     main pmpcfg pmpaddr phys_addr mode operation) as Hsolely.
  { intros pmpcfg' pmpaddr' i' r' Hc' Hx' Hfirst' HL HR HW HX.
    rewrite Hmain, (main_first_match pmpcfg' pmpaddr' Hc' Hx' _ _ _ i' r' Hfirst').
    now rewrite HL, (permits_fields r r') by assumption. }
  split; [exact Hmain|]. split; [exact Hsolely|].
  intros pmpcfg' pmpaddr' Hc' Hx' Hagree.
  destruct (first_match_prefix pmpcfg pmpaddr pmpcfg' pmpaddr' phys_addr i r
              ltac:(congruence) Hagree Hfirst) as (r' & Hfirst' & HL & HR & HW & HX).
  now apply (Hsolely pmpcfg' pmpaddr' i r').
Qed.

Lemma first_match_wins_witness :
  main sample_pmpcfg sample_pmpaddr 0x1004 "S" "X" = Val Access_fault /\
  main (0x6C :: repeat 0x7C 63) (0x401 :: repeat 0x401 63) 0x1004 "S" "X" = Val Access_fault.
Proof.
  destruct (first_match_wins sample_pmpcfg sample_pmpaddr 0x1004 "S" "X" 0
              (init 0 0x6C 0x401 sample_pmpaddr) eq_refl eq_refl sample_first_match)
    as (Hmain & _ & Hlater).
  split; [exact Hmain|].
  rewrite (Hlater (0x6C :: repeat 0x7C 63) (0x401 :: repeat 0x401 63) eq_refl eq_refl).
  - exact Hmain.
  - intros j Hj. assert (j = 0%nat) as -> by lia. split; reflexivity.
Defined.

(** C2.  Machine-mode bypass: in mode M, when the first entry whose region
    contains the address has its lock bit clear, the access is allowed,
    whatever the permission bits of the entry and the operation are. *)
Theorem machine_mode_bypass (pmpcfg pmpaddr : list Z) phys_addr operation i r :
  length pmpcfg = 64%nat -> length pmpaddr = 64%nat ->
  first_match pmpcfg pmpaddr phys_addr i r ->
  L r = 0 ->
  main pmpcfg pmpaddr phys_addr "M" operation = Val Access_allowed.
Proof.
  intros Hc Hx Hfirst HL.
  rewrite (main_first_match pmpcfg pmpaddr Hc Hx _ _ _ i r Hfirst), HL.
  reflexivity.
Qed.

Lemma machine_mode_bypass_witness :
  main sample_pmpcfg sample_pmpaddr 0x1004 "M" "X" = Val Access_allowed.
Proof.
  apply (machine_mode_bypass sample_pmpcfg sample_pmpaddr 0x1004 "X" 0
           (init 0 0x6C 0x401 sample_pmpaddr));
    [reflexivity | reflexivity | exact sample_first_match | reflexivity].
Defined.

(** C3.  Permission resolution: when the first matching entry is locked,
    or the mode is S or U, the access is allowed if the operation is in the
    permission set of that entry's configuration value, and faults
    otherwise. *)
Theorem permission_resolution (pmpcfg pmpaddr : list Z) phys_addr mode operation i r :
  length pmpcfg = 64%nat -> length pmpaddr = 64%nat ->
  first_match pmpcfg pmpaddr phys_addr i r ->
  L r <> 0 \/ mode = "S"%string \/ mode = "U"%string ->
  main pmpcfg pmpaddr phys_addr mode operation =
    Val (if has_permission (cfg r) operation then Access_allowed else Access_fault).
Proof.
  intros Hc Hx Hfirst Hcase.
  rewrite (main_first_match pmpcfg pmpaddr Hc Hx _ _ _ i r Hfirst).
  destruct Hfirst as (Hi & _). apply entry_at_init in Hi as (c & x & _ & _ & ->).
  rewrite permits_has_permission. cbn [cfg init].
  assert (String.eqb mode "M" && (L (init (Z.of_nat i) c x pmpaddr) =? 0) = false) as ->.
  { destruct Hcase as [HL | [-> | ->]]; [|reflexivity|reflexivity].
    apply andb_false_iff. right. now apply Z.eqb_neq. }
  now destruct (has_permission c operation).
Qed.

Lemma permission_resolution_witness :
  main sample_pmpcfg sample_pmpaddr 0x1004 "U" "W" = Val Access_allowed.
Proof.
  apply (permission_resolution sample_pmpcfg sample_pmpaddr 0x1004 "U" "W" 0
           (init 0 0x6C 0x401 sample_pmpaddr));
    [reflexivity | reflexivity | exact sample_first_match | right; right; reflexivity].
Defined.

(** C4.  No-match defaults: when no entry has a region that contains the
    address, the access faults if the mode is S or U and some entry has a
    mode other than OFF, and it is allowed if the mode is M or every entry
    is OFF. *)
Theorem no_match_defaults (pmpcfg pmpaddr : list Z) phys_addr mode operation :
  length pmpcfg = 64%nat -> length pmpaddr = 64%nat ->
  no_match pmpcfg pmpaddr phys_addr ->
  ((mode = "S"%string \/ mode = "U"%string) /\
   (exists i r, entry_at pmpcfg pmpaddr i = Some r /\ a r <> 0) ->
   main pmpcfg pmpaddr phys_addr mode operation = Val Access_fault) /\
  (mode = "M"%string \/ (forall i r, entry_at pmpcfg pmpaddr i = Some r -> a r = 0) ->
   main pmpcfg pmpaddr phys_addr mode operation = Val Access_allowed).
Proof.
  intros Hc Hx Hnone.
  rewrite (main_no_match pmpcfg pmpaddr Hc Hx _ _ _ Hnone).
  split.
  - intros [Hmode (i & r & Hi & Ha)].
    apply entry_at_init in Hi as (c & x & Hci & _ & ->). cbn [a init] in Ha.
    assert (existsb (fun cfg => negb (Z.land (Z.shiftr cfg 5) 3 =? 0)) pmpcfg = true) as ->
      by (apply any_pmp_true; now exists i, c).
    now destruct Hmode as [-> | ->].
  - intros [-> | Hoff].
    + now rewrite andb_false_r.
    + destruct (existsb _ pmpcfg) eqn:Hany; [|reflexivity].
      apply any_pmp_true in Hany as (i & c & Hci & Hne).
      destruct (entry_at_Some pmpcfg pmpaddr Hc Hx i c Hci) as (r & Hr & Ha).
      rewrite <- Ha in Hne. now rewrite (Hoff i r Hr) in Hne.
Qed.

Lemma no_match_defaults_witness :
  main sample_pmpcfg sample_pmpaddr 0x2000 "S" "R" = Val Access_fault /\
  main sample_pmpcfg sample_pmpaddr 0x2000 "M" "R" = Val Access_allowed.
Proof.
  destruct (no_match_defaults sample_pmpcfg sample_pmpaddr 0x2000 "S" "R"
              eq_refl eq_refl sample_no_match) as [Hfault _].
  destruct (no_match_defaults sample_pmpcfg sample_pmpaddr 0x2000 "M" "R"
              eq_refl eq_refl sample_no_match) as [_ Hallowed].
  split.
  - apply Hfault. split; [left; reflexivity|].
    exists 0%nat, (init 0 0x6C 0x401 sample_pmpaddr). split; [reflexivity | discriminate].
  - apply Hallowed. left. reflexivity.
Defined.

End EvaluatorProperties.

(** * Termination of [count_trailing_ones] *)

Section Termination.

(** C10, as stated, fails: -2 and -3 are negative and the loop ends on
    them, after one test and after two. *)
Lemma loop_ends_on_negative_input :
  -2 < 0 /\ count_trailing_ones_loop 1 (-2) 0 = Val 0 /\
  -3 < 0 /\ count_trailing_ones_loop 2 (-3) 0 = Val 1.
Proof. repeat split. Qed.

(** C10, amended.  The loop of [count_trailing_ones] ends on every integer
    other than -1, hence on every non-negative one, and returns the length
    of the run of low 1 bits; on -1, which the sign-extending shift leaves
    unchanged, it never ends. *)
Theorem count_trailing_ones_termination (x : Z) :
  x <> -1 ->
  (exists fuel n,
     trailing_ones x n /\
     forall fuel', (fuel <= fuel')%nat -> count_trailing_ones_loop fuel' x 0 = Val n) /\
  (forall fuel count, count_trailing_ones_loop fuel (-1) count = Diverges).
Proof.
  intros Hx. split; [|intros fuel count; apply loop_minus_one].
  destruct (count_trailing_ones_returns x Hx) as (n & Hn & Hrun).
  exists (count_trailing_ones_fuel x), n. split; [exact Hrun|].
  intros fuel' Hle. now apply (loop_mono (count_trailing_ones_fuel x)).
Qed.

Lemma count_trailing_ones_termination_witness :
  exists fuel n, forall fuel', (fuel <= fuel')%nat -> count_trailing_ones_loop fuel' 7 0 = Val n.
Proof.
  destruct (count_trailing_ones_termination 7 ltac:(discriminate))
    as [(fuel & n & _ & Hret) _].
  exists fuel, n. exact Hret.
Defined.

End Termination.

(** * More on [count_trailing_ones] and on the regions *)

Section RegionArithmetic.

Import PMPRegion.

Lemma trailing_ones_form k m : 0 <= k -> trailing_ones (m * 2 ^ (k + 1) + (2 ^ k - 1)) k.
Proof.
  intros Hk. revert m. pattern k. apply natlike_ind; [| |exact Hk]; clear k Hk.
  - intros m. replace (m * 2 ^ (0 + 1) + (2 ^ 0 - 1)) with (2 * m) by (cbn; lia).
    split; [lia|]. split; [intros; lia | apply Z.testbit_even_0].
  - intros k Hk IH m.
    replace (m * 2 ^ (Z.succ k + 1) + (2 ^ Z.succ k - 1))
      with (2 * (m * 2 ^ (k + 1) + (2 ^ k - 1)) + 1).
    2:{ rewrite <- !Z.add_1_r, !Z.pow_add_r, !Z.pow_1_r by lia. lia. }
    rewrite <- Z.add_1_r. apply trailing_ones_shift.
    + apply Z.testbit_odd_0.
    + rewrite Z.shiftr_div_pow2 by lia. change (2 ^ 1) with 2.
      replace ((2 * (m * 2 ^ (k + 1) + (2 ^ k - 1)) + 1) / 2)
        with (m * 2 ^ (k + 1) + (2 ^ k - 1)); [apply IH|].
      apply Z.div_unique with (r := 1); lia.
Qed.

Lemma trailing_ones_low_bits x k :
  trailing_ones x k -> x mod 2 ^ (k + 1) = 2 ^ k - 1.
Proof.
  intros (Hk & H1 & H0).
  rewrite <- Z.land_ones by lia. rewrite Z.sub_1_r, <- Z.ones_equiv.
  apply Z.bits_inj'. intros i Hi.
  rewrite Z.land_spec, !Z.testbit_ones_nonneg by lia.
  destruct (Z.ltb_spec i k) as [Hlt | Hge].
  - rewrite H1 by lia. destruct (Z.ltb_spec i (k + 1)); [reflexivity | lia].
  - destruct (Z.eq_dec i k) as [-> | Hne]; [now rewrite H0|].
    destruct (Z.ltb_spec i (k + 1)); [lia | apply andb_false_r].
Qed.

Lemma trailing_ones_decompose x k :
  trailing_ones x k -> x = Z.shiftr x (k + 1) * 2 ^ (k + 1) + (2 ^ k - 1).
Proof.
  intros H. pose proof H as (Hk & _).
  rewrite <- (trailing_ones_low_bits x k H), Z.shiftr_div_pow2 by lia.
  pose proof (Z.div_mod x (2 ^ (k + 1)) ltac:(lia)). lia.
Qed.

Lemma clear_low_run x n :
  trailing_ones x n -> clear_low x n = Z.shiftr x (n + 1) * 2 ^ (n + 1).
Proof.
  intros H. pose proof H as (Hn & _).
  pose proof (trailing_ones_decompose x n H) as Hx.
  unfold clear_low. set (q := Z.shiftr x (n + 1)) in *.
  assert (x / 2 ^ n = 2 * q) as ->.
  { symmetry. apply Z.div_unique with (r := 2 ^ n - 1); [lia|].
    rewrite Z.pow_add_r, Z.pow_1_r in Hx by lia. lia. }
  rewrite Z.pow_add_r, Z.pow_1_r by lia. lia.
Qed.

Lemma field_bit_div c k : 0 <= k -> Z.land (Z.shiftr c k) 1 = (c / 2 ^ k) mod 2.
Proof.
  intros Hk. pose proof (Z.land_ones (Z.shiftr c k) 1 ltac:(lia)) as H.
  change (Z.ones 1) with 1 in H. now rewrite H, Z.shiftr_div_pow2 by lia.
Qed.

Lemma field_two_div c k : 0 <= k -> Z.land (Z.shiftr c k) 3 = (c / 2 ^ k) mod 4.
Proof.
  intros Hk. pose proof (Z.land_ones (Z.shiftr c k) 2 ltac:(lia)) as H.
  change (Z.ones 2) with 3 in H. now rewrite H, Z.shiftr_div_pow2 by lia.
Qed.

(** Membership in the block of size [P] and number [q]. *)
Lemma in_block phys q P :
  0 < P -> (q * P <=? phys) && (phys <? q * P + P) = (phys / P =? q).
Proof.
  intros HP.
  pose proof (Z.div_mod phys P ltac:(lia)) as Hd.
  pose proof (Z.mod_pos_bound phys P HP) as Hm.
  destruct (Z.leb_spec (q * P) phys), (Z.ltb_spec phys (q * P + P)),
    (Z.eqb_spec (phys / P) q); try reflexivity; exfalso; nia.
Qed.

End RegionArithmetic.

Section RegionProperties.

Import PMPRegion.

(** X1.  The value of [count_trailing_ones]: it returns [k] exactly on the
    integers of the form m * 2^(k+1) + (2^k - 1), those whose bits 0 to
    k-1 are 1 and whose bit k is 0. *)
Theorem count_trailing_ones_value (x k : Z) :
  count_trailing_ones x = Val k <->
  0 <= k /\ exists m, x = m * 2 ^ (k + 1) + (2 ^ k - 1).
Proof.
  split.
  - intros H. apply count_trailing_ones_spec in H. pose proof H as (Hk & _).
    split; [exact Hk|]. exists (Z.shiftr x (k + 1)). now apply trailing_ones_decompose.
  - intros (Hk & m & ->). apply count_trailing_ones_complete. now apply trailing_ones_form.
Qed.

(** X2.  NA4 matching: an entry in NA4 mode matches exactly the byte
    addresses whose word number, the address shifted right by 2, is the
    raw address of the entry. *)
Theorem na4_matches_word (r : t) (phys_addr : Z) :
  a r = 2 ->
  matches r phys_addr = Val (Z.shiftr phys_addr 2 =? addr r).
Proof.
  intros Ha. rewrite (matches_bounds _ _ _ _ (bounds_na4 r Ha)). f_equal.
  rewrite Z.shiftl_mul_pow2, Z.shiftr_div_pow2 by lia. change (2 ^ 2) with 4.
  apply in_block. lia.
Qed.

Lemma na4_matches_word_witness :
  matches (init 1 0x50 0x401 []) 0x1007 = Val (Z.shiftr 0x1007 2 =? 0x401).
Proof. apply (na4_matches_word (init 1 0x50 0x401 []) 0x1007). reflexivity. Defined.

(** X3.  NAPOT matching: with [n] the value of [count_trailing_ones] on the
    raw address, an entry in NAPOT mode matches exactly the byte addresses
    that agree with the raw address above the run: the address shifted
    right by n+3 is the raw address shifted right by n+1. *)
Theorem napot_matches_prefix (r : t) :
  a r = 3 -> addr r <> -1 ->
  exists n,
    count_trailing_ones (addr r) = Val n /\
    forall phys_addr,
      matches r phys_addr =
        Val (Z.shiftr phys_addr (n + 3) =? Z.shiftr (addr r) (n + 1)).
Proof.
  intros Ha Hx. destruct (count_trailing_ones_returns (addr r) Hx) as (n & Hn & Hrun).
  pose proof Hrun as (Hn0 & _).
  exists n. split; [exact Hn|]. intros phys_addr.
  rewrite (matches_bounds _ _ _ _ (bounds_napot r n Ha Hn)). f_equal.
  rewrite (clear_low_run _ _ Hrun), Z.shiftl_mul_pow2 by lia.
  rewrite (Z.shiftr_div_pow2 phys_addr) by lia.
  replace (Z.shiftr (addr r) (n + 1) * 2 ^ (n + 1) * 2 ^ 2)
    with (Z.shiftr (addr r) (n + 1) * 2 ^ (n + 3)).
  - apply in_block. lia.
  - replace (n + 3) with (n + 1 + 2) by lia. rewrite (Z.pow_add_r 2 (n + 1) 2) by lia. lia.
Qed.

Lemma napot_matches_prefix_witness :
  exists n, forall phys_addr,
    matches (init 0 0x6C 0x401 []) phys_addr =
      Val (Z.shiftr phys_addr (n + 3) =? Z.shiftr 0x401 (n + 1)).
Proof.
  destruct (napot_matches_prefix (init 0 0x6C 0x401 []) eq_refl ltac:(discriminate))
    as (n & _ & H).
  exists n. exact H.
Defined.

(** X4.  TOR chaining: the region of a TOR entry of index i+1 starts at the
    raw address of entry i shifted left by 2, whatever the mode of entry i
    is; when entry i is a TOR entry too, its region ends where the next
    one starts and no address is matched by both. *)
Theorem tor_regions_adjacent (pmpcfg pmpaddr : list Z) (i : nat) (r r' : t) :
  entry_at pmpcfg pmpaddr i = Some r ->
  entry_at pmpcfg pmpaddr (S i) = Some r' ->
  a r' = 1 ->
  region_bounds r' = Val (Some (Z.shiftl (addr r) 2), Some (Z.shiftl (addr r') 2)) /\
  (a r = 1 ->
   exists lower,
     region_bounds r = Val (Some lower, Some (Z.shiftl (addr r) 2)) /\
     forall phys_addr,
       matches r phys_addr = Val true -> matches r' phys_addr = Val false).
Proof.
  intros Hr Hr' Ha'.
  apply entry_at_init in Hr as (c & x & _ & Hx & ->).
  apply entry_at_init in Hr' as (c' & x' & _ & Hx' & ->).
  cbn [addr init].
  assert (region_bounds (init (Z.of_nat (S i)) c' x' pmpaddr) =
            Val (Some (Z.shiftl x 2), Some (Z.shiftl x' 2))) as Hb'.
  { apply (bounds_tor_next _ x Ha'); cbn [index all_pmpaddr init]; [lia|].
    now replace (Z.to_nat (Z.of_nat (S i) - 1)) with i by lia. }
  split; [exact Hb'|]. intros Ha.
  assert (exists lower, region_bounds (init (Z.of_nat i) c x pmpaddr) =
                          Val (Some lower, Some (Z.shiftl x 2))) as [lower Hb].
  { destruct i as [|i].
    - exists 0. now apply bounds_tor_first.
    - pose proof (lookup_lt_Some _ _ _ Hx) as Hlt.
      destruct (lookup_lt_is_Some_2 pmpaddr i ltac:(lia)) as [p Hp].
      exists (Z.shiftl p 2).
      apply (bounds_tor_next _ p Ha); cbn [index all_pmpaddr init]; [lia|].
      now replace (Z.to_nat (Z.of_nat (S i) - 1)) with i by lia. }
  exists lower. split; [exact Hb|]. intros phys_addr.
  rewrite (matches_bounds _ _ _ _ Hb), (matches_bounds _ _ _ _ Hb').
  intros [= H]. f_equal. lia.
Qed.

Lemma tor_regions_adjacent_witness :
  region_bounds (init 1 0x28 0x30 [0x20; 0x30]) = Val (Some 0x80, Some 0xC0).
Proof.
  apply (tor_regions_adjacent [0x28; 0x28] [0x20; 0x30] 0
           (init 0 0x28 0x20 [0x20; 0x30]) (init 1 0x28 0x30 [0x20; 0x30]));
    reflexivity.
Defined.

(** X5.  Layout of the configuration value: [__init__] reads the lock from
    bit 7, the mode from bits 6-5, X from bit 4, W from bit 3 and R from
    bit 2, and nothing else: bits 1-0 and the bits above bit 7 change no
    field. *)
Theorem init_fields_layout (index addr : Z) (all_pmpaddr : list Z) (h l m x w r low : Z) :
  0 <= l <= 1 -> 0 <= m <= 3 -> 0 <= x <= 1 -> 0 <= w <= 1 -> 0 <= r <= 1 ->
  0 <= low <= 3 ->
  let e := init index (h * 256 + l * 128 + m * 32 + x * 16 + w * 8 + r * 4 + low)
                addr all_pmpaddr in
  L e = l /\ a e = m /\ X e = x /\ W e = w /\ R e = r.
Proof.
  intros Hl Hm Hx Hw Hr Hlow e. subst e. cbn [L a X W R init].
  rewrite !field_bit_div, field_two_div by lia.
  change (2 ^ 7) with 128. change (2 ^ 5) with 32. change (2 ^ 4) with 16.
  change (2 ^ 3) with 8. change (2 ^ 2) with 4.
  repeat split; Z.div_mod_to_equations; lia.
Qed.

Lemma init_fields_layout_witness :
  L (init 0 0x6C 0 []) = 0 /\ a (init 0 0x6C 0 []) = 3 /\ X (init 0 0x6C 0 []) = 0 /\
  W (init 0 0x6C 0 []) = 1 /\ R (init 0 0x6C 0 []) = 1.
Proof.
  apply (init_fields_layout 0 0 [] 0 0 3 0 1 1 0); lia.
Defined.

End RegionProperties.

(** * Outcomes of [main] *)

Section MainOutcomes.

Import PMPRegion.

Lemma py_index_cases (l : list Z) i :
  py_index l i = Raise IndexError \/ exists v, py_index l i = Val v.
Proof.
  unfold py_index. destruct (_ || _); [now left|].
  destruct (l !! _) as [v|]; [right; now exists v | now left].
Qed.

Lemma py_index_short (l : list Z) (n : nat) :
  (length l <= n)%nat -> py_index l (Z.of_nat n) = Raise IndexError.
Proof.
  intros Hle. unfold py_index.
  destruct (Z.ltb_spec (Z.of_nat n) 0) as [Hneg | _]; [lia|].
  destruct (Z.ltb_spec (Z.of_nat n) 0) as [Hneg | _]; [lia|].
  destruct (Z.leb_spec (Z.of_nat (length l)) (Z.of_nat n)) as [_ | Hlt]; [reflexivity | lia].
Qed.

Lemma mapM_result_Raise {A B : Type} (f : A -> result B) (e : exn) (l : list A) :
  (forall x, x ∈ l -> f x = Raise e \/ exists v, f x = Val v) ->
  (exists x, x ∈ l /\ f x = Raise e) ->
  mapM f l = Raise e.
Proof.
  induction l as [|x l IH]; intros Hall (y & Hy & Hfy).
  - now apply elem_of_nil in Hy.
  - cbn [mapM]. destruct (Hall x (list_elem_of_here _ _)) as [Hx | [v Hx]]; rewrite Hx.
    + reflexivity.
    + cbn [mbind result_bind]. rewrite IH; [reflexivity | |].
      * intros z Hz. apply Hall. now apply list_elem_of_further.
      * apply elem_of_cons in Hy as [-> | Hy]; [congruence|]. now exists y.
Qed.

Lemma build_regions_short (pmpcfg pmpaddr : list Z) :
  (length pmpcfg < 64)%nat \/ (length pmpaddr < 64)%nat ->
  build_regions pmpcfg pmpaddr = Raise IndexError.
Proof.
  intros Hshort. apply mapM_result_Raise.
  - intros i _. destruct (py_index_cases pmpcfg i) as [-> | [c ->]]; [now left|].
    cbn [mbind result_bind].
    destruct (py_index_cases pmpaddr i) as [-> | [x ->]]; [now left|].
    right. now eexists.
  - destruct Hshort as [Hc | Hx].
    + exists (Z.of_nat (length pmpcfg)). split; [apply elem_of_seqZ; lia|].
      rewrite (py_index_short pmpcfg) by lia. reflexivity.
    + exists (Z.of_nat (length pmpaddr)). split; [apply elem_of_seqZ; lia|].
      destruct (py_index_cases pmpcfg (Z.of_nat (length pmpaddr))) as [-> | [c ->]];
        [reflexivity|].
      cbn [mbind result_bind]. rewrite (py_index_short pmpaddr) by lia. reflexivity.
Qed.

(** The bounds of an entry of a 64-entry configuration are computed unless
    the entry is a NAPOT entry of raw address -1. *)
Lemma entry_bounds_cases (pmpcfg pmpaddr : list Z) i r :
  length pmpaddr = 64%nat ->
  entry_at pmpcfg pmpaddr i = Some r ->
  (exists bounds, region_bounds r = Val bounds) \/
  (region_bounds r = Diverges /\ a r = 3 /\ addr r = -1).
Proof.
  intros Hlen Hr. apply entry_at_init in Hr as (c & x & Hc & Hx & ->).
  pose proof (lookup_lt_Some _ _ _ Hx) as Hi.
  pose proof (field_two_bits c 5) as Hmode.
  set (r := init (Z.of_nat i) c x pmpaddr).
  assert (a r = Z.land (Z.shiftr c 5) 3) as Ha by reflexivity.
  assert (a r = 0 \/ a r = 1 \/ a r = 2 \/ a r = 3) as [H | [H | [H | H]]] by lia.
  - left. eexists. now apply bounds_off.
  - left. destruct i as [|i].
    + eexists. now apply bounds_tor_first.
    + destruct (lookup_lt_is_Some_2 pmpaddr i ltac:(lia)) as [p Hp].
      eexists. apply (bounds_tor_next r p H); cbn [index r init]; [lia|].
      now replace (Z.to_nat (Z.of_nat (S i) - 1)) with i by lia.
  - left. eexists. now apply bounds_na4.
  - destruct (count_trailing_ones_cases x) as [[-> Hd] | [Hne (n & Hn & _)]].
    + right. split; [now apply bounds_napot_diverges | now split].
    + left. eexists. now apply (bounds_napot r n).
Qed.

Lemma matches_diverges r phys_addr :
  matches r phys_addr = Diverges <-> region_bounds r = Diverges.
Proof.
  unfold matches. destruct (region_bounds r) as [[[lo|] [up|]]| |]; cbn; split; congruence.
Qed.

Lemma scan_diverges (regions : list t) phys_addr mode operation :
  scan_regions regions phys_addr mode operation = Diverges <->
  exists i r, regions !! i = Some r /\ matches r phys_addr = Diverges /\
    forall j r', (j < i)%nat -> regions !! j = Some r' -> matches r' phys_addr = Val false.
Proof.
  induction regions as [|r0 rest IH].
  - split; [discriminate | intros (i & r & Hr & _); discriminate].
  - cbn [scan_regions]. destruct (matches r0 phys_addr) as [[|]| |] eqn:Hm;
      cbn [mbind result_bind].
    + split.
      * destruct (_ && _); [discriminate|]. destruct (permits _ _ _); discriminate.
      * intros (i & r & Hr & Hd & Hbefore). destruct i as [|i].
        -- injection Hr as ->. congruence.
        -- specialize (Hbefore 0%nat r0 ltac:(lia) eq_refl). congruence.
    + rewrite IH. split.
      * intros (i & r & Hr & Hd & Hbefore). exists (S i), r.
        split; [exact Hr|]. split; [exact Hd|].
        intros [|j] r' Hj Hr'; [injection Hr' as <-; exact Hm|].
        apply (Hbefore j); [lia | exact Hr'].
      * intros (i & r & Hr & Hd & Hbefore). destruct i as [|i].
        -- injection Hr as ->. congruence.
        -- exists i, r. split; [exact Hr|]. split; [exact Hd|].
           intros j r' Hj Hr'. apply (Hbefore (S j)); [lia | exact Hr'].
    + split; [discriminate|].
      intros (i & r & Hr & Hd & Hbefore). destruct i as [|i].
      * injection Hr as ->. congruence.
      * specialize (Hbefore 0%nat r0 ltac:(lia) eq_refl). congruence.
    + split; [|reflexivity]. intros _. exists 0%nat, r0.
      split; [reflexivity|]. split; [exact Hm|]. intros j r' Hj. lia.
Qed.

Lemma scan_outcomes (regions : list t) phys_addr mode operation :
  (forall r, r ∈ regions ->
     (exists bounds, region_bounds r = Val bounds) \/ region_bounds r = Diverges) ->
  scan_regions regions phys_addr mode operation = Diverges \/
  scan_regions regions phys_addr mode operation = Val None \/
  scan_regions regions phys_addr mode operation = Val (Some Access_allowed) \/
  scan_regions regions phys_addr mode operation = Val (Some Access_fault).
Proof.
  induction regions as [|r0 rest IH]; intros Hall; [right; now left|].
  cbn [scan_regions]. unfold matches at 1 2 3 4.
  destruct (Hall r0 (list_elem_of_here _ _)) as [[b ->] | ->]; [|now left].
  cbn [mbind result_bind].
  assert (forall r, r ∈ rest ->
            (exists bounds, region_bounds r = Val bounds) \/ region_bounds r = Diverges) as Hrest
    by (intros r Hr; apply Hall; now apply list_elem_of_further).
  specialize (IH Hrest).
  destruct b as [[lo|] [up|]]; cbn [mbind result_bind]; try exact IH.
  destruct (_ && _); [|exact IH].
  destruct (_ && _); [right; right; now left|].
  destruct (permits _ _ _); right; right; [now left | now right].
Qed.

Lemma main_of_scan (pmpcfg pmpaddr regions : list _) phys_addr mode operation :
  build_regions pmpcfg pmpaddr = Val regions ->
  main pmpcfg pmpaddr phys_addr mode operation =
    printed ← scan_regions regions phys_addr mode operation;
    match printed with
    | Some line => Val line
    | None =>
        if existsb (fun cfg => negb (Z.land (Z.shiftr cfg 5) 3 =? 0)) pmpcfg
           && (String.eqb mode "S" || String.eqb mode "U")
        then Val Access_fault
        else Val Access_allowed
    end.
Proof. intros H. unfold main. now rewrite H. Qed.

End MainOutcomes.

Section MainProperties.

Import PMPRegion.

(** X6.  A list with fewer than 64 values: when either list is shorter
    than 64, building the regions raises [IndexError], and [main] prints
    nothing. *)
Theorem main_short_list_raises (pmpcfg pmpaddr : list Z) phys_addr mode operation :
  (length pmpcfg < 64)%nat \/ (length pmpaddr < 64)%nat ->
  main pmpcfg pmpaddr phys_addr mode operation = Raise IndexError.
Proof.
  intros Hshort. unfold main. now rewrite build_regions_short.
Qed.

Lemma main_short_list_raises_witness :
  main (repeat 0 63) (repeat 0 64) 0 "M" "R" = Raise IndexError.
Proof.
  apply (main_short_list_raises (repeat 0 63) (repeat 0 64)).
  left. cbn. lia.
Defined.

(** X7.  Outcomes on 64 entries: [main] raises nothing; it prints one of
    the two lines or does not return, and it does not return exactly when
    some NAPOT entry has raw address -1 and every entry before it is
    decoded and misses the address. *)
Theorem main_outcomes (pmpcfg pmpaddr : list Z) phys_addr mode operation :
  length pmpcfg = 64%nat -> length pmpaddr = 64%nat ->
  (main pmpcfg pmpaddr phys_addr mode operation = Val Access_allowed \/
   main pmpcfg pmpaddr phys_addr mode operation = Val Access_fault \/
   main pmpcfg pmpaddr phys_addr mode operation = Diverges) /\
  (main pmpcfg pmpaddr phys_addr mode operation = Diverges <->
   exists i r,
     entry_at pmpcfg pmpaddr i = Some r /\ a r = 3 /\ addr r = -1 /\
     forall j r', (j < i)%nat -> entry_at pmpcfg pmpaddr j = Some r' ->
                  region_misses r' phys_addr).
Proof.
  intros Hc Hx.
  destruct (build_regions_entries pmpcfg pmpaddr Hc Hx) as (regions & Hbuild & Hentries).
  rewrite (main_of_scan _ _ _ _ _ _ Hbuild). split.
  - destruct (scan_outcomes regions phys_addr mode operation) as [-> | [-> | [-> | ->]]];
      cbn [mbind result_bind]; auto.
    + intros r Hr. apply list_elem_of_lookup in Hr as [i Hi]. rewrite Hentries in Hi.
      destruct (entry_bounds_cases pmpcfg pmpaddr i r Hx Hi) as [Hb | (Hd & _)]; auto.
    + destruct (_ && _); auto.
  - transitivity (scan_regions regions phys_addr mode operation = Diverges).
    { destruct (scan_regions regions phys_addr mode operation) as [[line|]| |];
        cbn [mbind result_bind]; split; try congruence.
      destruct (_ && _); discriminate. }
    rewrite scan_diverges. split.
    + intros (i & r & Hr & Hd & Hbefore). exists i, r. rewrite Hentries in Hr.
      apply matches_diverges in Hd.
      destruct (entry_bounds_cases pmpcfg pmpaddr i r Hx Hr) as [[b Hb] | (_ & Ha & Hm)];
        [congruence|].
      repeat split; try assumption.
      intros j r' Hj Hr'. apply matches_misses. apply (Hbefore j); [exact Hj|].
      now rewrite Hentries.
    + intros (i & r & Hr & Ha & Hm & Hbefore). exists i, r. rewrite Hentries.
      split; [exact Hr|]. split; [now apply matches_diverges, bounds_napot_diverges|].
      intros j r' Hj Hr'. apply matches_misses. apply (Hbefore j); [exact Hj|].
      now rewrite <- Hentries.
Qed.

Lemma main_outcomes_witness :
  main (0x60 :: repeat 0 63) (-1 :: repeat 0 63) 0x1004 "S" "R" = Diverges.
Proof.
  destruct (main_outcomes (0x60 :: repeat 0 63) (-1 :: repeat 0 63) 0x1004 "S" "R"
              eq_refl eq_refl) as [_ [_ Hhang]].
  apply Hhang. exists 0%nat, (init 0 0x60 (-1) (-1 :: repeat 0 63)).
  split; [reflexivity|]. split; [reflexivity|]. split; [reflexivity|].
  intros j r' Hj. lia.
Defined.

(** X9.  Supervisor and user mode are not told apart: on every
    configuration, address and operation, [main] does the same in mode S
    and in mode U. *)
Theorem supervisor_user_same (pmpcfg pmpaddr : list Z) phys_addr operation :
  main pmpcfg pmpaddr phys_addr "S" operation =
  main pmpcfg pmpaddr phys_addr "U" operation.
Proof.
  unfold main. destruct (build_regions pmpcfg pmpaddr) as [regions| |]; [|reflexivity..].
  cbn [mbind result_bind].
  assert (scan_regions regions phys_addr "S" operation =
          scan_regions regions phys_addr "U" operation) as ->.
  { induction regions as [|r0 rest IH]; [reflexivity|].
    cbn [scan_regions]. destruct (matches r0 phys_addr) as [[|]| |]; cbn [mbind result_bind];
      [reflexivity | exact IH | reflexivity | reflexivity]. }
  destruct (scan_regions regions phys_addr "U" operation) as [[line|]| |]; reflexivity.
Qed.

Lemma scan_machine (regions : list t) phys_addr mode operation printed :
  scan_regions regions phys_addr mode operation = Val printed ->
  exists printed',
    scan_regions regions phys_addr "M" operation = Val printed' /\
    (printed = None -> printed' = None) /\
    (printed = Some Access_allowed -> printed' = Some Access_allowed).
Proof.
  induction regions as [|r0 rest IH].
  - intros [= <-]. now exists None.
  - cbn [scan_regions]. destruct (matches r0 phys_addr) as [[|]| |]; cbn [mbind result_bind];
      [|exact IH|discriminate|discriminate].
    change (String.eqb "M" "M") with true. cbn [andb].
    unfold permits. destruct (L r0 =? 0).
    + intros H. exists (Some Access_allowed). split; [reflexivity|]. split; [|reflexivity].
      intros ->. destruct (_ && _); [discriminate|].
      revert H. repeat (destruct (_ && _); try discriminate).
    + rewrite andb_false_r. intros H. exists printed. split; [exact H|]. now split.
Qed.

(** X10.  Machine mode is the most permissive mode: an access that [main]
    allows in some mode is allowed in mode M, on the same configuration,
    address and operation. *)
Theorem machine_at_least (pmpcfg pmpaddr : list Z) phys_addr mode operation :
  main pmpcfg pmpaddr phys_addr mode operation = Val Access_allowed ->
  main pmpcfg pmpaddr phys_addr "M" operation = Val Access_allowed.
Proof.
  unfold main. destruct (build_regions pmpcfg pmpaddr) as [regions| |]; [|discriminate..].
  cbn [mbind result_bind].
  destruct (scan_regions regions phys_addr mode operation) as [printed| |] eqn:Hscan;
    [|discriminate..].
  destruct (scan_machine _ _ _ _ _ Hscan) as (printed' & -> & Hnone & Hallowed).
  cbn [mbind result_bind]. destruct printed as [line|].
  - intros [= ->]. now rewrite (Hallowed eq_refl).
  - intros _. rewrite (Hnone eq_refl). now rewrite andb_false_r.
Qed.

Lemma machine_at_least_witness :
  main sample_pmpcfg sample_pmpaddr 0x1004 "M" "W" = Val Access_allowed.
Proof.
  apply (machine_at_least sample_pmpcfg sample_pmpaddr 0x1004 "S" "W"). reflexivity.
Defined.

End MainProperties.

Section DefaultsAndLocks.

Import PMPRegion.

Lemma sample_registers j x : sample_pmpaddr !! j = Some x -> 0 <= x.
Proof.
  intros H. apply list_elem_of_lookup_2 in H.
  assert (Forall (fun x => 0 <= x) sample_pmpaddr) as Hall
    by (repeat constructor; discriminate).
  rewrite Forall_forall in Hall. now apply Hall.
Defined.

Lemma main_total_witness :
  main sample_pmpcfg sample_pmpaddr 0x1004 "S" "X" = Val Access_allowed \/
  main sample_pmpcfg sample_pmpaddr 0x1004 "S" "X" = Val Access_fault.
Proof.
  apply (main_total sample_pmpcfg sample_pmpaddr 0x1004 "S" "X" eq_refl eq_refl).
  exact sample_registers.
Defined.

Lemma scan_unlocked (regions : list t) phys_addr operation printed :
  (forall r, r ∈ regions -> L r = 0) ->
  scan_regions regions phys_addr "M" operation = Val printed ->
  printed = None \/ printed = Some Access_allowed.
Proof.
  induction regions as [|r0 rest IH]; intros Hall.
  - intros [= <-]. now left.
  - cbn [scan_regions]. destruct (matches r0 phys_addr) as [[|]| |]; cbn [mbind result_bind];
      [| |discriminate|discriminate].
    + rewrite (Hall r0) by apply list_elem_of_here. cbn. intros [= <-]. now right.
    + apply IH. intros r Hr. apply Hall. now apply list_elem_of_further.
Qed.

(** X11.  Without a locked entry machine mode is unrestricted: with 64
    values in each list, no negative address register and bit 7 clear in
    every configuration value, [main] allows every access in mode M. *)
Theorem machine_unrestricted_without_lock (pmpcfg pmpaddr : list Z) phys_addr operation :
  length pmpcfg = 64%nat -> length pmpaddr = 64%nat ->
  (forall j x, pmpaddr !! j = Some x -> 0 <= x) ->
  (forall j c, pmpcfg !! j = Some c -> Z.testbit c 7 = false) ->
  main pmpcfg pmpaddr phys_addr "M" operation = Val Access_allowed.
Proof.
  intros Hc Hx Hpos Hunlocked.
  destruct (build_regions_entries pmpcfg pmpaddr Hc Hx) as (regions & Hbuild & Hentries).
  rewrite (main_of_scan _ _ _ _ _ _ Hbuild).
  destruct (scan_returns regions phys_addr "M" operation) as [printed Hscan].
  { intros r Hr. apply list_elem_of_lookup in Hr as [i Hi]. rewrite Hentries in Hi.
    now apply (entry_decodes pmpcfg pmpaddr i r). }
  rewrite Hscan. cbn [mbind result_bind].
  destruct (scan_unlocked regions phys_addr operation printed) as [-> | ->];
    [|exact Hscan| |reflexivity].
  - intros r Hr. apply list_elem_of_lookup in Hr as [i Hi]. rewrite Hentries in Hi.
    apply entry_at_init in Hi as (c & x & Hci & _ & ->). cbn [L init].
    now rewrite field_bit, (Hunlocked i c Hci) by lia.
  - now rewrite andb_false_r.
Qed.

Lemma machine_unrestricted_without_lock_witness :
  main sample_pmpcfg sample_pmpaddr 0x1004 "M" "X" = Val Access_allowed.
Proof.
  apply (machine_unrestricted_without_lock sample_pmpcfg sample_pmpaddr 0x1004 "X"
           eq_refl eq_refl sample_registers).
  intros j c H. apply list_elem_of_lookup_2 in H.
  assert (Forall (fun c => Z.testbit c 7 = false) sample_pmpcfg) as Hall
    by (repeat constructor).
  rewrite Forall_forall in Hall. now apply Hall.
Defined.

(** X12.  Default allow: with 64 values in each list and the mode field
    OFF in every configuration value, [main] allows every access, in every
    mode, at every address and whatever the address registers hold. *)
Theorem all_off_allows (pmpcfg pmpaddr : list Z) phys_addr mode operation :
  length pmpcfg = 64%nat -> length pmpaddr = 64%nat ->
  (forall j c, pmpcfg !! j = Some c -> Z.land (Z.shiftr c 5) 3 = 0) ->
  main pmpcfg pmpaddr phys_addr mode operation = Val Access_allowed.
Proof.
  intros Hc Hx Hoff.
  rewrite (main_no_match pmpcfg pmpaddr Hc Hx).
  - destruct (existsb _ pmpcfg) eqn:Hany; [|reflexivity].
    apply any_pmp_true in Hany as (i & c & Hci & Hne). now rewrite (Hoff i c Hci) in Hne.
  - intros i r Hr. apply entry_at_init in Hr as (c & x & Hci & _ & ->).
    exists (None, None). split; [|exact I].
    apply bounds_off. cbn [a init]. now apply (Hoff i).
Qed.

Lemma all_off_allows_witness :
  main (replicate 64 0x9C) (replicate 64 (-1)) 0x1004 "U" "W" = Val Access_allowed.
Proof.
  apply (all_off_allows (replicate 64 0x9C) (replicate 64 (-1)) 0x1004 "U" "W"
           eq_refl eq_refl).
  intros j c H. apply lookup_replicate in H as [-> _]. reflexivity.
Defined.

End DefaultsAndLocks.

(** * The program *)

Section Program.

Variable py : python.

Lemma int16_all_length lines vs :
  int16_all py lines = inl vs -> length vs = length lines.
Proof.
  revert vs. induction lines as [|line rest IH]; intros vs.
  - now intros [= <-].
  - cbn [int16_all]. destruct (int16 py line) as [v|e]; [|discriminate].
    destruct (int16_all py rest) as [vs'|e]; [|discriminate].
    intros [= <-]. cbn [length]. now rewrite (IH vs').
Qed.

Lemma int16_all_app l1 l2 vs :
  int16_all py (l1 ++ l2) = inl vs <->
  exists v1 v2, vs = v1 ++ v2 /\ int16_all py l1 = inl v1 /\ int16_all py l2 = inl v2.
Proof.
  revert vs. induction l1 as [|line rest IH]; intros vs.
  - cbn [app int16_all]. split.
    + intros H. now exists [], vs.
    + intros (v1 & v2 & -> & [= <-] & H). exact H.
  - cbn [app int16_all]. destruct (int16 py line) as [v|e].
    2:{ split; [discriminate | intros (v1 & v2 & _ & H & _); discriminate]. }
    destruct (int16_all py (rest ++ l2)) as [vs'|e].
    + destruct (proj1 (IH vs') eq_refl) as (v1 & v2 & -> & -> & H2). split.
      * intros [= <-]. now exists (v :: v1), v2.
      * intros (w1 & w2 & -> & [= <-] & Hw2). rewrite H2 in Hw2. now injection Hw2 as <-.
    + split; [discriminate|]. intros (w1 & w2 & -> & Hw1 & Hw2).
      destruct (int16_all py rest) as [v1|e1]; [|discriminate].
      assert (@inr (list Z) string e = inl (v1 ++ w2)) as Hok
        by (apply IH; now exists v1, w2).
      discriminate.
Qed.

Lemma read_config_inr file pmpcfg pmpaddr :
  read_config py file = inr (pmpcfg, pmpaddr) <->
  exists raw,
    file = inl raw /\
    length pmpcfg = 64%nat /\ length pmpaddr = 64%nat /\
    int16_all py (config_lines py raw) = inl (pmpcfg ++ pmpaddr).
Proof.
  unfold read_config. destruct file as [raw|e].
  2:{ split; [discriminate | intros (raw & [=] & _)]. }
  set (lines := config_lines py raw).
  destruct (Nat.eqb_spec (length lines) 128) as [Hlen | Hlen]; cbn [negb].
  - split.
    + destruct (int16_all py (firstn 64 lines)) as [c|e] eqn:Hc; [|discriminate].
      destruct (int16_all py (skipn 64 lines)) as [x|e] eqn:Hx; [|discriminate].
      intros [= <- <-]. exists raw. split; [reflexivity|].
      apply int16_all_length in Hc as Hc'. apply int16_all_length in Hx as Hx'.
      rewrite length_firstn in Hc'. rewrite length_skipn in Hx'.
      split; [lia|]. split; [lia|].
      fold lines. rewrite <- (firstn_skipn 64 lines) at 1.
      apply int16_all_app. now exists c, x.
    + intros (raw' & [= <-] & Hc & Hx & Hall). fold lines in Hall.
      rewrite <- (firstn_skipn 64 lines) in Hall.
      apply int16_all_app in Hall as (v1 & v2 & Heq & H1 & H2).
      apply int16_all_length in H1 as H1'. rewrite length_firstn in H1'.
      assert (v1 = pmpcfg /\ v2 = pmpaddr) as [-> ->].
      { apply app_inj_1; [lia | now symmetry]. }
      now rewrite H1, H2.
  - split; [discriminate|].
    intros (raw' & [= <-] & Hc & Hx & Hall). fold lines in Hall.
    apply int16_all_length in Hall. rewrite length_app in Hall. lia.
Qed.

Lemma read_config_inl_status file line status :
  read_config py file = inl (line, status) ->
  status = 1 /\ line <> Access_allowed /\ line <> Access_fault.
Proof.
  unfold read_config. destruct file as [raw|e].
  - destruct (negb _); [intros [= <- <-]; repeat split; discriminate|].
    destruct (int16_all py (firstn 64 _)) as [c|e];
      [|intros [= <- <-]; repeat split; discriminate].
    destruct (int16_all py (skipn 64 _)) as [x|e];
      [discriminate | intros [= <- <-]; repeat split; discriminate].
  - intros [= <- <-]. repeat split; discriminate.
Qed.

End Program.

Section ProgramProperties.

Lemma scan_prints_decision (regions : list PMPRegion.t) phys_addr mode operation line :
  scan_regions regions phys_addr mode operation = Val (Some line) ->
  line = Access_allowed \/ line = Access_fault.
Proof.
  induction regions as [|r0 rest IH]; [discriminate|].
  cbn [scan_regions].
  destruct (PMPRegion.matches r0 phys_addr) as [[|]| |]; cbn [mbind result_bind];
    [|exact IH|discriminate|discriminate].
  destruct (_ && _); [intros [= <-]; now left|].
  destruct (PMPRegion.permits _ _ _); intros [= <-]; [now left | now right].
Qed.

Lemma main_prints_decision (pmpcfg pmpaddr : list Z) phys_addr mode operation line :
  main pmpcfg pmpaddr phys_addr mode operation = Val line ->
  line = Access_allowed \/ line = Access_fault.
Proof.
  unfold main. destruct (build_regions pmpcfg pmpaddr) as [regions| |]; [|discriminate..].
  cbn [mbind result_bind].
  destruct (scan_regions regions phys_addr mode operation) as [[printed|]| |] eqn:Hscan;
    cbn [mbind result_bind]; [| |discriminate..].
  - intros [= <-]. now apply scan_prints_decision in Hscan.
  - destruct (_ && _); intros [= <-]; [now right | now left].
Qed.



(** X14.  When a decision is printed: the program ends with exit status 0
    exactly when it has five arguments, the address starts with 0x and
    converts, the upper-cased mode and operation are valid, the
    configuration is read, and [main] returns on the two lists, which have
    64 values each; the line printed is the one [main] returns. *)
Theorem program_decision (py : python) (files : string -> file_contents)
    (argv : list string) (line : string) :
  program py files argv = Val (line, 0) <->
  exists prog config_file address_str arg_mode arg_operation phys_addr pmpcfg pmpaddr,
    argv = [prog; config_file; address_str; arg_mode; arg_operation] /\
    String.prefix "0x" address_str = true /\
    int16 py address_str = inl phys_addr /\
    In (str_upper py arg_mode) ["M"; "S"; "U"]%string /\
    In (str_upper py arg_operation) ["R"; "W"; "X"]%string /\
    read_config py (files config_file) = inr (pmpcfg, pmpaddr) /\
    length pmpcfg = 64%nat /\ length pmpaddr = 64%nat /\
    main pmpcfg pmpaddr phys_addr (str_upper py arg_mode) (str_upper py arg_operation)
      = Val line.
Proof.
  assert (forall (s : string) l, existsb (String.eqb s) l = true <-> In s l) as Hin.
  { intros s l. rewrite existsb_exists. split.
    - intros (x & Hx & Heq). apply String.eqb_eq in Heq. now subst.
    - intros H. exists s. split; [exact H | apply String.eqb_refl]. }
  split.
  - destruct argv as [|prog [|cf [|ad [|a3 [|a4 [|? ?]]]]]]; try discriminate.
    cbn [program].
    destruct (String.prefix "0x" ad) eqn:Hpre; [|discriminate]. cbn [negb].
    destruct (int16 py ad) as [phys|e] eqn:Hint; [|discriminate].
    destruct (existsb (String.eqb (str_upper py a3)) _) eqn:Hm; [|discriminate].
    destruct (existsb (String.eqb (str_upper py a4)) _) eqn:Ho; [|discriminate].
    cbn [negb].
    destruct (read_config py (files cf)) as [[l st]|[pmpcfg pmpaddr]] eqn:Hread.
    { intros [= -> ->]. apply read_config_inl_status in Hread as [? _]. discriminate. }
    destruct (main pmpcfg pmpaddr phys _ _) as [l| |] eqn:Hmain; [|discriminate..].
    cbn [mbind result_bind]. intros [= ->].
    apply read_config_inr in Hread as Hlen. destruct Hlen as (raw & _ & Hc & Hx & _).
    exists prog, cf, ad, a3, a4, phys, pmpcfg, pmpaddr.
    repeat split; try assumption; now apply Hin.
  - intros (prog & cf & ad & a3 & a4 & phys & pmpcfg & pmpaddr &
            -> & Hpre & Hint & Hm & Ho & Hread & _ & _ & Hmain).
    apply Hin in Hm, Ho. cbn [program].
    rewrite Hpre, Hint, Hm, Ho, Hread, Hmain. reflexivity.
Qed.

(** X15.  Exit status: the status is 0 exactly when the line printed is
    one of the two decisions, Access fault as much as Access allowed; every
    other line comes with status 1. *)
Theorem program_exit_status (py : python) (files : string -> file_contents)
    (argv : list string) (line : string) (status : Z) :
  program py files argv = Val (line, status) ->
  (status = 0 /\ (line = Access_allowed \/ line = Access_fault)) \/
  (status = 1 /\ line <> Access_allowed /\ line <> Access_fault).
Proof.
  destruct argv as [|prog [|cf [|ad [|a3 [|a4 [|? ?]]]]]];
    try (intros [= <- <-]; right; repeat split; discriminate).
  cbn [program].
  destruct (negb (String.prefix "0x" ad));
    [intros [= <- <-]; right; repeat split; discriminate|].
  destruct (int16 py ad) as [phys|e];
    [|intros [= <- <-]; right; repeat split; discriminate].
  destruct (negb (existsb (String.eqb (str_upper py a3)) _));
    [intros [= <- <-]; right; repeat split; discriminate|].
  destruct (negb (existsb (String.eqb (str_upper py a4)) _));
    [intros [= <- <-]; right; repeat split; discriminate|].
  destruct (read_config py (files cf)) as [[l st]|[pmpcfg pmpaddr]] eqn:Hread.
  - intros [= -> ->]. right. now apply read_config_inl_status in Hread.
  - destruct (main pmpcfg pmpaddr phys _ _) as [l| |] eqn:Hmain; [|discriminate..].
    cbn [mbind result_bind]. intros [= <- <-]. left. split; [reflexivity|].
    now apply main_prints_decision in Hmain.
Qed.

Lemma program_exit_status_witness :
  program sample_python (fun _ => inl sample_file) sample_argv = Val (Access_allowed, 0) /\
  ((0 = 0 /\ (Access_allowed = Access_allowed \/ Access_allowed = Access_fault)) \/
   (0 = 1 /\ Access_allowed <> Access_allowed /\ Access_allowed <> Access_fault)).
Proof.
  split; [reflexivity|].
  apply (program_exit_status sample_python (fun _ => inl sample_file) sample_argv).
  reflexivity.
Defined.


End ProgramProperties.
